(** * PKS-LSAG: the ring-signature engine of the server's crypto module

    A shallow embedding of the four operations of the LSAG core
    ([createKeyImage], [generateLSAGSignature], [verifyLSAGSignature],
    [areLSAGSignaturesLinked]) together with the pieces of the JavaScript
    platform they rely on, followed by the properties of the
    specification.

    Conventions.
    - A JavaScript string is a [string]; one character of the model stands
      for one UTF-16 code unit, so [String.length] is [.length], [++] is
      [+] on strings and [String.eqb] is [===] on strings.
    - A rejected promise / thrown exception is [Throw e], where [e] is the
      text the thrown value renders to in a template literal.
    - SHA-256 and the asymmetric signing primitive belong to the
      platform's crypto library; they are parameters of the development.
      Their output encodings (hex, base64) are written out. *)

From Stdlib Require Import ZArith NArith String Ascii List Lia Bool.
From Stdlib Require Import Init.Byte.
From Stdlib Require Strings.Byte.
From stdpp Require Import base list.
Import ListNotations.

Local Open Scope list_scope.
Local Open Scope nat_scope.
Local Open Scope string_scope.

(** ** The JavaScript platform *)

Module JS.

(** Outcome of a computation that may throw. *)
Inductive Result (A : Type) : Type :=
| Ok (a : A)
| Throw (error : string).
Arguments Ok {A} a.
Arguments Throw {A} error.

Definition bind {A B} (r : Result A) (k : A -> Result B) : Result B :=
  match r with
  | Ok a => k a
  | Throw e => Throw e
  end.

(** [try { body } catch (error) { handler }] *)
Definition try_catch {A} (body : Result A) (handler : string -> Result A)
  : Result A :=
  match body with
  | Ok a => Ok a
  | Throw e => handler e
  end.

(** [${new Error(msg)}] for a non-empty [msg]. *)
Definition new_Error (msg : string) : string := "Error: " ++ msg.

(** Reading [.publicKey] (or any property) of [undefined]. *)
Definition TypeError_undefined (prop : string) : string :=
  "TypeError: Cannot read properties of undefined (reading '"
    ++ prop ++ "')".

(** [!v] for a value that is a string or [undefined]. *)
Definition not_ (v : option string) : bool :=
  match v with
  | None => true
  | Some s => String.eqb s ""
  end.

(** String conversion of a string-or-[undefined] operand of [+]. *)
Definition to_str (v : option string) : string :=
  match v with
  | None => "undefined"
  | Some s => s
  end.

(** Completion of one loop iteration. *)
Inductive Completion (S : Type) : Type :=
| Normal (s : S)
| Break (s : S).
Arguments Normal {S} s.
Arguments Break {S} s.

(** [for (let i = lo; i < lo + fuel; i++) body], threading the variables
    the body assigns to.  The result carries the value of [i] at the
    exit together with the final variables. *)
Fixpoint for_from {S} (fuel i : nat)
    (body : nat -> S -> Result (Completion S)) (s : S)
  : Result (nat * S) :=
  match fuel with
  | O => Ok (i, s)
  | Datatypes.S fuel' =>
      match body i s with
      | Throw e => Throw e
      | Ok (Break s') => Ok (i, s')
      | Ok (Normal s') => for_from fuel' (Datatypes.S i) body s'
      end
  end.

Definition for_lt {S} (bound : nat)
    (body : nat -> S -> Result (Completion S)) (s : S)
  : Result (nat * S) :=
  for_from bound 0 body s.

(** *** [Buffer.toString('hex')] *)

Definition hex_digit (n : N) : ascii :=
  match n with
  | 0%N => "0" | 1%N => "1" | 2%N => "2" | 3%N => "3"
  | 4%N => "4" | 5%N => "5" | 6%N => "6" | 7%N => "7"
  | 8%N => "8" | 9%N => "9" | 10%N => "a" | 11%N => "b"
  | 12%N => "c" | 13%N => "d" | 14%N => "e" | _ => "f"
  end%char.

Definition hex_of_byte (b : byte) : string :=
  let n := Byte.to_N b in
  String (hex_digit (n / 16)) (String (hex_digit (n mod 16)) "").

Fixpoint hex_encode (bs : list byte) : string :=
  match bs with
  | [] => ""
  | b :: bs' => hex_of_byte b ++ hex_encode bs'
  end.

(** *** [Buffer.toString('base64')] *)

Definition base64_alphabet : string :=
  "ABCDEFGHIJKLMNOPQRSTUVWXYZabcdefghijklmnopqrstuvwxyz0123456789+/".

Definition base64_digit (n : N) : ascii :=
  match String.get (N.to_nat n) base64_alphabet with
  | Some c => c
  | None => "="%char
  end.

Definition sextet (k : N) (n : N) : ascii :=
  base64_digit (N.land (N.shiftr n (6 * k)) 63).

Fixpoint base64_encode (bs : list byte) : string :=
  match bs with
  | [] => ""
  | [a] =>
      let n := (Byte.to_N a * 65536)%N in
      String (sextet 3 n) (String (sextet 2 n) "==")
  | [a; b] =>
      let n := (Byte.to_N a * 65536 + Byte.to_N b * 256)%N in
      String (sextet 3 n) (String (sextet 2 n) (String (sextet 1 n) "="))
  | a :: b :: c :: rest =>
      let n := (Byte.to_N a * 65536 + Byte.to_N b * 256 + Byte.to_N c)%N in
      String (sextet 3 n) (String (sextet 2 n)
        (String (sextet 1 n) (String (sextet 0 n) (base64_encode rest))))
  end.

Inductive Encoding : Type := hex | base64.

Definition encode (enc : Encoding) (bs : list byte) : string :=
  match enc with
  | hex => hex_encode bs
  | base64 => base64_encode bs
  end.

(** *** [JSON.stringify] on an array of strings *)

Definition json_escape_char (c : ascii) : string :=
  let n := N_of_ascii c in
  if N.eqb n 8 then "\b"
  else if N.eqb n 9 then "\t"
  else if N.eqb n 10 then "\n"
  else if N.eqb n 12 then "\f"
  else if N.eqb n 13 then "\r"
  else if N.eqb n 34 then String (ascii_of_N 92) (String (ascii_of_N 34) "")
  else if N.eqb n 92 then "\\"
  else if N.ltb n 32 then
    "\u00" ++ String (hex_digit (n / 16)) (String (hex_digit (n mod 16)) "")
  else String c "".

Fixpoint json_escape (s : string) : string :=
  match s with
  | EmptyString => ""
  | String c s' => json_escape_char c ++ json_escape s'
  end.

Definition json_quote (s : string) : string :=
  let q := String (ascii_of_N 34) "" in
  q ++ json_escape s ++ q.

Definition JSON_stringify (xs : list string) : string :=
  "[" ++ String.concat "," (List.map json_quote xs) ++ "]".

End JS.

Import JS.

(** ** Data model ([@shared/schema]) *)

Module GroupMember.
Record t : Type := mk { id : string; publicKey : string }.
End GroupMember.

Module LSAGGroup.
(** [id?: string]: [None] is an absent identifier. *)
Record t : Type := mk {
  id : option string;
  name : string;
  members : list GroupMember.t
}.
End LSAGGroup.

Record LSAGSignature : Type := mkLSAGSignature {
  ringSignature : list string;
  challenge : string;
  keyImage : string;
  message : string;
  groupId : string
}.

(** ** Randomness

    [crypto.randomBytes] reads a process-wide source.  The source is a
    tape of bytes with a read position; drawing [size] bytes returns the
    next [size] bytes of the tape and advances the position. *)

Record Entropy : Type := mkEntropy { tape : nat -> byte; pos : nat }.

Definition randomBytes (size : nat) (rng : Entropy) : list byte * Entropy :=
  (List.map (tape rng) (seq (pos rng) size),
   {| tape := tape rng; pos := pos rng + size |}).

(** [function generateRandomScalar()] *)
Definition generateRandomScalar (rng : Entropy) : string * Entropy :=
  let '(bytes, rng') := randomBytes 32 rng in
  (hex_encode bytes, rng').

(** [array.map(f)] for a callback that draws randomness: the callback
    runs on the elements in index order. *)
Fixpoint Array_map {A B} (f : A -> Entropy -> B * Entropy) (xs : list A)
    (rng : Entropy) : list B * Entropy :=
  match xs with
  | [] => ([], rng)
  | x :: xs' =>
      let '(y, rng1) := f x rng in
      let '(ys, rng2) := Array_map f xs' rng1 in
      (y :: ys, rng2)
  end.

(** The [k]-th 32-byte scalar read from position [pos rng] on. *)
Definition scalar_at (rng : Entropy) (k : nat) : string :=
  hex_encode (List.map (tape rng) (seq (pos rng + 32 * k) 32)).

(** ** The LSAG core (the server's crypto module) *)

Section Core.

(** [crypto.createHash('sha256').update(data).digest()]: the raw digest
    of the UTF-8 encoding of [data]. *)
Variable sha256 : string -> list byte.

(** [crypto.createSign('SHA256').update(data).end().sign(privateKey)]:
    the raw signature, or the rendered error the primitive throws on
    key material it rejects. *)
Variable sign_sha256 : string -> string -> Result (list byte).

Definition createHash_digest (data : string) (enc : Encoding) : string :=
  encode enc (sha256 data).

Definition createSign_sign (data privateKey : string) (enc : Encoding)
  : Result string :=
  bind (sign_sha256 data privateKey) (fun raw => Ok (encode enc raw)).

(** [export function createKeyImage(message, privateKey, publicKey)] *)
Definition createKeyImage (message privateKey publicKey : string) : string :=
  let hash := createHash_digest (message ++ publicKey) hex in
  createHash_digest (hash ++ privateKey) hex.

(** [group.members[i].publicKey] *)
Definition member_publicKey (members : list GroupMember.t) (i : nat)
  : Result string :=
  match members !! i with
  | Some m => Ok (GroupMember.publicKey m)
  | None => Throw (TypeError_undefined "publicKey")
  end.

(** Body of the loop of [generateLSAGSignature]; the loop assigns to
    [ringSignature] and [challenge].  [ringSignature[i] = v] is
    [<[i:=v]>]: the array has [members.length] slots and the loop runs
    [i] below [members.length], so every write is in range, where the two
    agree (an out-of-range write would extend the JavaScript array). *)
Definition generate_body (message privateKey : string)
    (members : list GroupMember.t) (signerIndex : Z)
    (randomValues : list string)
    (i : nat) (st : list string * string)
  : Result (Completion (list string * string)) :=
  let '(ringSignature, challenge) := st in
  bind (if Z.eqb (Z.of_nat i) signerIndex
        then createSign_sign (message ++ challenge) privateKey base64
        else Ok (createHash_digest
                   (message ++ to_str (randomValues !! i) ++ challenge)
                   base64))
    (fun entry =>
       let ringSignature := <[i:=entry]> ringSignature in
       bind (member_publicKey members i) (fun memberPubKey =>
         let challenge :=
           createHash_digest
             (challenge ++ to_str (ringSignature !! i) ++ memberPubKey) hex in
         Ok (Normal (ringSignature, challenge)))).

(** [export async function generateLSAGSignature(message, privateKey,
    signerPublicKey, group, signerIndex)].  [signerIndex] is a number
    compared with [===] against the loop counter; only its integer
    values can match, hence [Z].  The key image and the random draws
    precede everything that can throw, so the [try] block is entered
    with the entropy already consumed. *)
Definition generateLSAGSignature (message privateKey signerPublicKey : string)
    (group : LSAGGroup.t) (signerIndex : Z) (rng : Entropy)
  : Result LSAGSignature * Entropy :=
  let members := LSAGGroup.members group in
  let keyImage := createKeyImage message privateKey signerPublicKey in
  let '(randomValues, rng') :=
    Array_map (fun _ : nat => generateRandomScalar)
              (repeat 0 (length members)) rng in
  (try_catch
     (let ringSignature := repeat "" (length members) in
      let challenge :=
        createHash_digest
          (message
             ++ JSON_stringify (List.map GroupMember.publicKey members)
             ++ to_str (randomValues !! 0)) hex in
      bind (for_lt (length members)
              (generate_body message privateKey members signerIndex
                 randomValues)
              (ringSignature, challenge))
        (fun '(_, (ringSignature, challenge)) =>
           if not_ (LSAGGroup.id group)
           then Throw (new_Error "Group must have an ID to generate signature")
           else Ok {| ringSignature := ringSignature;
                      challenge := challenge;
                      keyImage := keyImage;
                      message := message;
                      groupId := to_str (LSAGGroup.id group) |}))
     (fun error =>
        Throw (new_Error ("Failed to generate LSAG signature: " ++ error))),
   rng').

(** Body of the loop of [verifyLSAGSignature]; the loop assigns to
    [challenge] and [validRing].  [!ringSignaturePart] holds of
    [undefined] (first branch, where [.length] is not evaluated) and of
    the empty string. *)
Definition verify_body (signature : LSAGSignature) (group : LSAGGroup.t)
    (i : nat) (st : string * bool)
  : Result (Completion (string * bool)) :=
  let '(challenge, validRing) := st in
  bind (member_publicKey (LSAGGroup.members group) i) (fun memberPubKey =>
    match ringSignature signature !! i with
    | None => Ok (Break (challenge, false))
    | Some ringSignaturePart =>
        if String.eqb ringSignaturePart ""
           || (String.length ringSignaturePart <? 10)%nat
        then Ok (Break (challenge, false))
        else
          let challenge :=
            createHash_digest
              (challenge ++ ringSignaturePart ++ memberPubKey) hex in
          Ok (Normal (challenge, validRing))
    end).

(** The loop of [verifyLSAGSignature]: exit index, final [challenge] and
    [validRing]. *)
Definition verify_loop (signature : LSAGSignature) (group : LSAGGroup.t)
  : Result (nat * (string * bool)) :=
  for_lt (length (LSAGGroup.members group))
    (verify_body signature group)
    (challenge signature, true).

(** [export async function verifyLSAGSignature(signature, group)] *)
Definition verifyLSAGSignature (signature : LSAGSignature)
    (group : LSAGGroup.t) : Result bool :=
  try_catch
    (bind (verify_loop signature group)
       (fun '(_, (_, validRing)) => Ok validRing))
    (fun error =>
       Throw (new_Error ("Failed to verify LSAG signature: " ++ error))).

End Core.

(** [export function areLSAGSignaturesLinked(sig1, sig2)] *)
Definition areLSAGSignaturesLinked (sig1 sig2 : LSAGSignature) : bool :=
  String.eqb (keyImage sig1) (keyImage sig2).

(** ** The operations as the specification words them *)

Section Spec.

Variable sha256 : string -> list byte.
Variable sign_sha256 : string -> string -> Result (list byte).

(** [Hash]: the digest as hex text. *)
Definition Hash (x : string) : string := hex_encode (sha256 x).

(** [Hash] rendered in base64. *)
Definition Hash_base64 (x : string) : string := base64_encode (sha256 x).

(** [Sign(x, sk)] in base64; [None] when the primitive fails. *)
Definition Sign_base64 (x sk : string) : option string :=
  match sign_sha256 x sk with
  | Ok raw => Some (base64_encode raw)
  | Throw _ => None
  end.

(** Specification 4.1: [innerDigest = Hash(message || publicKey)],
    [keyImage = Hash(innerDigest || privateKey)]. *)
Definition deriveKeyImage_spec (m sk pk : string) : string :=
  let innerDigest := Hash (m ++ pk) in
  Hash (innerDigest ++ sk).

(** Specification 4.2, step 4: the entries [entry_i, entry_(i+1), ...]
    for the remaining public keys [pks] and scalars [rs], and the value
    of [c] after them. *)
Fixpoint ring_chain_spec (m sk : string) (signerIndex : Z) (i : nat)
    (pks rs : list string) (c : string) : option (list string * string) :=
  match pks, rs with
  | pk :: pks', r :: rs' =>
      match (if Z.eqb (Z.of_nat i) signerIndex
             then Sign_base64 (m ++ c) sk
             else Some (Hash_base64 (m ++ r ++ c))) with
      | None => None
      | Some entry =>
          match ring_chain_spec m sk signerIndex (S i) pks' rs'
                  (Hash (c ++ entry ++ pk)) with
          | None => None
          | Some (entries, c') => Some (entry :: entries, c')
          end
      end
  | _, _ => Some ([], c)
  end.

(** Specification 4.2, steps 1 to 6, for the scalars [rs = r_0 ..] and
    the identifier [gid] of the group. *)
Definition buildRing_spec (m sk pk : string) (G : LSAGGroup.t)
    (signerIndex : Z) (rs : list string) (gid : string)
  : option LSAGSignature :=
  match rs with
  | [] => None
  | r_0 :: _ =>
      let pks := List.map GroupMember.publicKey (LSAGGroup.members G) in
      let seed := Hash (m ++ JSON_stringify pks ++ r_0) in
      match ring_chain_spec m sk signerIndex 0 pks rs seed with
      | None => None
      | Some (entries, c) =>
          Some {| ringSignature := entries;
                  challenge := c;
                  keyImage := deriveKeyImage_spec m sk pk;
                  message := m;
                  groupId := gid |}
      end
  end.

(** The chained value after replaying entries against public keys, in
    index order, from [c]. *)
Definition replay (c : string) (steps : list (string * string)) : string :=
  fold_left (fun c '(entry, pk) => Hash (c ++ entry ++ pk)) steps c.

End Spec.

(** ** Vocabulary of the statements *)

(** The structural check of the verifier on slot [i]: present, and at
    least ten code units long. *)
Definition entry_ok (e : option string) : bool :=
  match e with
  | None => false
  | Some s => (10 <=? String.length s)%nat
  end.

Definition ring_ok (n : nat) (entries : list string) : bool :=
  forallb (fun i => entry_ok (entries !! i)) (seq 0 n).

Definition with_ringSignature (s : LSAGSignature) (entries : list string)
  : LSAGSignature :=
  {| ringSignature := entries;
     challenge := challenge s;
     keyImage := keyImage s;
     message := message s;
     groupId := groupId s |}.

Definition member_keys (G : LSAGGroup.t) : list string :=
  List.map GroupMember.publicKey (LSAGGroup.members G).

Definition is_Throw {A} (r : Result A) : Prop := exists e, r = Throw e.

(** What [generateLSAGSignature] rejects with for a group without id. *)
Definition missing_id_error : string :=
  new_Error ("Failed to generate LSAG signature: "
               ++ new_Error "Group must have an ID to generate signature").

(** ** Stand-ins for the platform primitives, for concrete runs *)

Module Demo.

(** A 32-byte digest: the first 32 bytes of the input, zero padded. *)
Definition sha256 (data : string) : list byte :=
  firstn 32 (list_byte_of_string data ++ repeat x00%byte 32).

(** Rejects the empty key; otherwise a digest of key and data. *)
Definition sign (data privateKey : string) : Result (list byte) :=
  if String.eqb privateKey ""
  then Throw "Error: error:1E08010C:DECODER routines::unsupported"
  else Ok (sha256 (privateKey ++ data)).

Definition rng : Entropy :=
  {| tape := fun k => nth (k mod 4) [x01; x23; x45; x67]%byte x00%byte;
     pos := 0 |}.

Definition A : GroupMember.t := GroupMember.mk "a" "pkA".
Definition B : GroupMember.t := GroupMember.mk "b" "pkB".

Definition group (id : option string) : LSAGGroup.t :=
  LSAGGroup.mk id "demo" [A; B].

Definition empty_group : LSAGGroup.t := LSAGGroup.mk (Some "g0") "empty" [].

(** What [generateLSAGSignature sha256 sign "hello" "skA" "pkA"
    (group (Some "g1")) 0 rng] returns. *)
Definition signature : LSAGSignature :=
  {| ringSignature :=
       ["c2tBaGVsbG82ODY1NmM2YzZmNWIyMjcwNmI0MTIyMmM=";
        "aGVsbG8wMTIzNDU2NzAxMjM0NTY3MDEyMzQ1NjcwMTI="];
     challenge :=
       "3336333833363335333636333336363333363636333536323332333233373330";
     keyImage :=
       "3638363536633663366637303662343130303030303030303030303030303030";
     message := "hello";
     groupId := "g1" |}.

(** A signature nobody constructed, with entries as long as those of
    [signature]. *)
Definition forged : LSAGSignature :=
  {| ringSignature :=
       ["0123456789012345678901234567890123456789ABCD";
        "abcdefghijklmnopqrstuvwxyzabcdefghijklmnopqr"];
     challenge := "";
     keyImage := "00";
     message := "bye";
     groupId := "g2" |}.

(** [signature] with the second entry cut to nine characters. *)
Definition truncated : LSAGSignature :=
  with_ringSignature signature
    ["c2tBaGVsbG82ODY1NmM2YzZmNWIyMjcwNmI0MTIyMmM="; "aGVsbG8wM"].

(** [signature] with its second entry missing. *)
Definition short : LSAGSignature :=
  with_ringSignature signature
    ["c2tBaGVsbG82ODY1NmM2YzZmNWIyMjcwNmI0MTIyMmM="].

Definition other_group : LSAGGroup.t :=
  LSAGGroup.mk None "other"
    [GroupMember.mk "c" "pkC"; GroupMember.mk "d" "pkD"].

(** Another digest function: the empty digest. *)
Definition sha256' (data : string) : list byte := [].

End Demo.

(** ** The single-key path of the crypto module *)

Module SignatureData.
Record t : Type := mk { signature : string; messageHash : string }.
End SignatureData.

Section SingleKey.

Variable sha256 : string -> list byte.
Variable sign_sha256 : string -> string -> Result (list byte).



End SingleKey.

(** ** [Map<string, V>]

    A JavaScript [Map] keeps its entries in insertion order; [set] on a
    key already present replaces the value where it stands, [set] on a new
    key appends.  A map is a list of entries with pairwise distinct keys
    ([JsMap.wf]). *)

Module JsMap.

Definition t (V : Type) : Type := list (string * V).

Definition empty {V : Type} : t V := [].

Definition wf {V : Type} (m : t V) : Prop := NoDup (List.map fst m).

(** [m.get(key)]; [None] is [undefined]. *)
Fixpoint get {V : Type} (m : t V) (key : string) : option V :=
  match m with
  | [] => None
  | (k, v) :: m' => if String.eqb k key then Some v else get m' key
  end.

(** [m.set(key, value)] *)
Fixpoint set {V : Type} (m : t V) (key : string) (value : V) : t V :=
  match m with
  | [] => [(key, value)]
  | (k, v) :: m' =>
      if String.eqb k key then (k, value) :: m'
      else (k, v) :: set m' key value
  end.

(** [m.delete(key)]: whether the key was present, and the map without
    it. *)
Fixpoint delete {V : Type} (m : t V) (key : string) : bool * t V :=
  match m with
  | [] => (false, [])
  | (k, v) :: m' =>
      if String.eqb k key then (true, m')
      else let '(found, rest) := delete m' key in (found, (k, v) :: rest)
  end.

(** [Array.from(m.values())] *)
Definition values {V : Type} (m : t V) : list V := List.map snd m.

End JsMap.

(** ** [crypto.randomUUID()]

    A version 4 UUID (RFC 4122): sixteen bytes of the random source with
    the version and variant bits set, as lower-case hex in groups of
    8-4-4-4-12.  How far ahead the platform reads the source is not
    modelled: the call takes the next sixteen bytes. *)

Definition byte_of_N (n : N) : byte :=
  match Byte.of_N (n mod 256) with
  | Some b => b
  | None => x00%byte
  end.

Definition uuid_version_byte (b : byte) : byte :=
  byte_of_N (N.lor (N.land (Byte.to_N b) 15) 64).

Definition uuid_variant_byte (b : byte) : byte :=
  byte_of_N (N.lor (N.land (Byte.to_N b) 63) 128).

Definition uuid_format (bytes : list byte) : string :=
  hex_encode (take 4 bytes) ++ "-"
    ++ hex_encode (take 2 (drop 4 bytes)) ++ "-"
    ++ hex_encode (take 2 (drop 6 bytes)) ++ "-"
    ++ hex_encode (take 2 (drop 8 bytes)) ++ "-"
    ++ hex_encode (take 6 (drop 10 bytes)).

Definition randomUUID (rng : Entropy) : string * Entropy :=
  let '(bytes, rng') := randomBytes 16 rng in
  (uuid_format (alter uuid_variant_byte 8 (alter uuid_version_byte 6 bytes)),
   rng').

(** ** The in-memory store ([class MemStorage])

    The [groups] and [signatures] maps.  The [users] map and [currentId]
    belong to the user table, whose types are outside the sources; no
    LSAG method reads or writes them. *)

Record MemStorage : Type := mkMemStorage {
  groups : JsMap.t LSAGGroup.t;
  signatures : JsMap.t LSAGSignature
}.

(** [constructor()] *)
Definition MemStorage_new : MemStorage :=
  {| groups := JsMap.empty; signatures := JsMap.empty |}.

(** [async getGroup(groupId)] *)
Definition getGroup (st : MemStorage) (groupId : string)
  : option LSAGGroup.t :=
  JsMap.get (groups st) groupId.

(** [async getAllGroups()] *)
Definition getAllGroups (st : MemStorage) : list LSAGGroup.t :=
  JsMap.values (groups st).

(** [async createGroup(group)]: [group.id || crypto.randomUUID()] draws a
    UUID only when [group.id] is absent or empty. *)
Definition createGroup (group : LSAGGroup.t) (st : MemStorage) (rng : Entropy)
  : LSAGGroup.t * MemStorage * Entropy :=
  let '(id, rng') :=
    if not_ (LSAGGroup.id group) then randomUUID rng
    else (to_str (LSAGGroup.id group), rng) in
  let groupWithId :=
    LSAGGroup.mk (Some id) (LSAGGroup.name group) (LSAGGroup.members group) in
  (groupWithId,
   {| groups := JsMap.set (groups st) id groupWithId;
      signatures := signatures st |},
   rng').

(** [async updateGroup(group)] *)
Definition updateGroup (group : LSAGGroup.t) (st : MemStorage)
  : Result (LSAGGroup.t * MemStorage) :=
  if not_ (LSAGGroup.id group)
  then Throw (new_Error "Cannot update group without an ID")
  else Ok (group,
           {| groups := JsMap.set (groups st) (to_str (LSAGGroup.id group)) group;
              signatures := signatures st |}).

(** [async deleteGroup(groupId)] *)
Definition deleteGroup (groupId : string) (st : MemStorage)
  : bool * MemStorage :=
  let '(found, rest) := JsMap.delete (groups st) groupId in
  (found, {| groups := rest; signatures := signatures st |}).

(** [async getSignature(signatureId)] *)
Definition getSignature (st : MemStorage) (signatureId : string)
  : option LSAGSignature :=
  JsMap.get (signatures st) signatureId.

(** [async getAllSignatures()] *)
Definition getAllSignatures (st : MemStorage) : list LSAGSignature :=
  JsMap.values (signatures st).

(** [async getSignaturesByGroup(groupId)] *)
Definition getSignaturesByGroup (st : MemStorage) (groupId_ : string)
  : list LSAGSignature :=
  List.filter (fun signature => String.eqb (groupId signature) groupId_)
    (JsMap.values (signatures st)).

(** [async createSignature(signature)]: the key image is the key. *)
Definition createSignature (signature : LSAGSignature) (st : MemStorage)
  : LSAGSignature * MemStorage :=
  (signature,
   {| groups := groups st;
      signatures := JsMap.set (signatures st) (keyImage signature) signature |}).

(** What the store keeps true: every group is filed under its own,
    non-empty id and every signature under its key image. *)
Definition storage_inv (st : MemStorage) : Prop :=
  JsMap.wf (groups st)
  /\ JsMap.wf (signatures st)
  /\ (forall k g, getGroup st k = Some g ->
        LSAGGroup.id g = Some k /\ k <> "")
  /\ (forall k s, getSignature st k = Some s -> keyImage s = k).

(** ** The LSAG routes ([registerRoutes])

    A handler is a function of the request body, the store and the random
    source; it answers with a status and a JSON body.  Request bodies are
    taken with the fields and JSON types their schema names, so that the
    only schema failures are the [min] constraints; [zod] reports issues
    in the order of the schema's keys and the handlers answer with the
    first. *)

Inductive Json : Type :=
| JMessage (message : string)
| JSignature (signature : LSAGSignature)
| JValid (valid : bool)
| JLinked (linked : bool).

Record Response : Type := mkResponse { status : nat; json : Json }.

Inductive ZodResult (A : Type) : Type :=
| Parsed (data : A)
| ZodError (errors : list string).
Arguments Parsed {A} data.
Arguments ZodError {A} errors.

(** [z.string().min(1, message)] on a string. *)
Definition min_1 (value message : string) : list string :=
  if (String.length value <? 1)%nat then [message] else [].

(** [z.number().int().min(0, message)] on an integer. *)
Definition int_min_0 (value : Z) (message : string) : list string :=
  if (value <? 0)%Z then [message] else [].

Definition zod_result {A : Type} (data : A) (issues : list string)
  : ZodResult A :=
  match issues with
  | [] => Parsed data
  | _ :: _ => ZodError issues
  end.

Module SignRequest.
Record t : Type := mk {
  message : string;
  privateKey : string;
  publicKey : string;
  groupId : string;
  signerIndex : Z
}.
End SignRequest.

Module VerifyRequest.
Record t : Type := mk { signature : LSAGSignature; groupId : string }.
End VerifyRequest.

Module LinkRequest.
Record t : Type := mk { signature1Id : string; signature2Id : string }.
End LinkRequest.

(** [generateLSAGSignatureSchema.parse(req.body)] *)
Definition generateLSAGSignatureSchema_parse (body : SignRequest.t)
  : ZodResult SignRequest.t :=
  zod_result body
    (min_1 (SignRequest.message body) "Message is required"
     ++ min_1 (SignRequest.privateKey body) "Private key is required"
     ++ min_1 (SignRequest.publicKey body) "Public key is required"
     ++ min_1 (SignRequest.groupId body) "Group ID is required"
     ++ int_min_0 (SignRequest.signerIndex body)
          "Signer index must be a non-negative integer")%list.

(** [verifyLSAGSignatureSchema.parse(req.body)] *)
Definition verifyLSAGSignatureSchema_parse (body : VerifyRequest.t)
  : ZodResult VerifyRequest.t :=
  zod_result body (min_1 (VerifyRequest.groupId body) "Group ID is required").

(** [checkLinkabilitySchema.parse(req.body)] *)
Definition checkLinkabilitySchema_parse (body : LinkRequest.t)
  : ZodResult LinkRequest.t :=
  zod_result body
    (min_1 (LinkRequest.signature1Id body) "First signature ID is required"
     ++ min_1 (LinkRequest.signature2Id body)
          "Second signature ID is required")%list.

(** [error.errors[0].message] *)
Definition first_message (errors : list string) : string :=
  to_str (errors !! 0).

Section Routes.

Variable sha256 : string -> list byte.
Variable sign_sha256 : string -> string -> Result (list byte).

(** [app.post("/api/lsag/sign", ...)] *)
Definition post_lsag_sign (body : SignRequest.t) (st : MemStorage)
    (rng : Entropy) : Response * MemStorage * Entropy :=
  match generateLSAGSignatureSchema_parse body with
  | ZodError errors =>
      (mkResponse 400 (JMessage (first_message errors)), st, rng)
  | Parsed data =>
      let message := SignRequest.message data in
      let privateKey := SignRequest.privateKey data in
      let publicKey := SignRequest.publicKey data in
      let signerIndex := SignRequest.signerIndex data in
      match getGroup st (SignRequest.groupId data) with
      | None => (mkResponse 404 (JMessage "Group not found"), st, rng)
      | Some group =>
          if (signerIndex >=? Z.of_nat (length (LSAGGroup.members group)))%Z
          then (mkResponse 400 (JMessage "Invalid signer index"), st, rng)
          else
            match member_publicKey (LSAGGroup.members group)
                    (Z.to_nat signerIndex) with
            | Throw error =>
                (mkResponse 500
                   (JMessage ("Error generating LSAG signature: " ++ error)),
                 st, rng)
            | Ok memberPubKey =>
                if negb (String.eqb memberPubKey publicKey)
                then (mkResponse 400
                        (JMessage
                           "Public key doesn't match the key at signerIndex"),
                      st, rng)
                else
                  let '(result, rng') :=
                    generateLSAGSignature sha256 sign_sha256 message
                      privateKey publicKey group signerIndex rng in
                  match result with
                  | Throw error =>
                      (mkResponse 500
                         (JMessage
                            ("Error generating LSAG signature: " ++ error)),
                       st, rng')
                  | Ok signature =>
                      let '(_, st') := createSignature signature st in
                      (mkResponse 200 (JSignature signature), st', rng')
                  end
            end
      end
  end.

(** [app.post("/api/lsag/verify", ...)]; the handler only reads the
    store. *)
Definition post_lsag_verify (body : VerifyRequest.t) (st : MemStorage)
  : Response :=
  match verifyLSAGSignatureSchema_parse body with
  | ZodError errors => mkResponse 400 (JMessage (first_message errors))
  | Parsed data =>
      match getGroup st (VerifyRequest.groupId data) with
      | None => mkResponse 404 (JMessage "Group not found")
      | Some group =>
          match verifyLSAGSignature sha256 (VerifyRequest.signature data)
                  group with
          | Throw error =>
              mkResponse 500
                (JMessage ("Error verifying LSAG signature: " ++ error))
          | Ok valid => mkResponse 200 (JValid valid)
          end
      end
  end.

End Routes.

(** [app.post("/api/lsag/check-linkability", ...)]; the handler only
    reads the store. *)
Definition post_lsag_check_linkability (body : LinkRequest.t)
    (st : MemStorage) : Response :=
  match checkLinkabilitySchema_parse body with
  | ZodError errors => mkResponse 400 (JMessage (first_message errors))
  | Parsed data =>
      match getSignature st (LinkRequest.signature1Id data),
            getSignature st (LinkRequest.signature2Id data) with
      | Some signature1, Some signature2 =>
          let linked := areLSAGSignaturesLinked signature1 signature2 in
          mkResponse 200 (JLinked linked)
      | _, _ => mkResponse 404 (JMessage "One or both signatures not found")
      end
  end.

(** ** The tampering tutorial ([tamperSignature]) *)

(** [str.substring(start, end)] on indices that are natural numbers: both
    are clamped to the length and swapped when out of order. *)
Definition js_substring (str : string) (start finish : nat) : string :=
  let len := String.length str in
  let a := Nat.min start len in
  let b := Nat.min finish len in
  String.substring (Nat.min a b) (Nat.max a b - Nat.min a b) str.

(** [const tamperChar = (str, position, newChar) => ...] *)
Definition tamperChar (str : string) (position : nat) (newChar : string)
  : string :=
  js_substring str 0 position ++ newChar
    ++ js_substring str (position + 1) (String.length str).

(** [const tamperSignature = async () => ...] as a function of
    [state.originalSignature]: the new [state.tamperedSignature], or
    [None] when the handler returns without touching the state. *)
Definition tamperSignature (originalSignature : string) : option string :=
  if not_ (Some originalSignature) then None
  else
    let position := String.length originalSignature / 2 in
    Some (tamperChar originalSignature position "X").

(** ** Vocabulary of the statements about generated signatures *)

(** The [n] scalars a run of [generateLSAGSignature] draws from [rng]. *)
Definition drawn_scalars (rng : Entropy) (n : nat) : list string :=
  List.map (scalar_at rng) (seq 0 n).

(** The initial challenge of a run of [generateLSAGSignature]. *)
Definition seed_challenge (sha256 : string -> list byte) (m : string)
    (G : LSAGGroup.t) (rng : Entropy) : string :=
  Hash sha256
    (m ++ JSON_stringify (member_keys G)
       ++ to_str (drawn_scalars rng (length (LSAGGroup.members G)) !! 0)).

(** The signer's slot named by a signing request exists in [G] and holds
    the request's public key. *)
Definition signer_slot_matches (body : SignRequest.t) (G : LSAGGroup.t)
  : Prop :=
  (0 <= SignRequest.signerIndex body
     < Z.of_nat (length (LSAGGroup.members G)))%Z
  /\ member_keys G !! Z.to_nat (SignRequest.signerIndex body)
     = Some (SignRequest.publicKey body).

(** ** A store and requests for concrete runs *)

Module Fixture.

(** The store after [createGroup] of the demo group under id [g1]. *)
Definition store1 : MemStorage :=
  (createGroup (Demo.group (Some "g1")) MemStorage_new Demo.rng).1.2.

Definition sign_body : SignRequest.t :=
  SignRequest.mk "hello" "skA" "pkA" "g1" 0.

(** The store after the signing route served [sign_body] on [store1]. *)
Definition store2 : MemStorage :=
  (post_lsag_sign Demo.sha256 Demo.sign sign_body store1 Demo.rng).1.2.

Definition unwrap (r : Result LSAGSignature) : LSAGSignature :=
  match r with
  | Ok s => s
  | Throw _ => Demo.forged
  end.

(** A second signature of [hello] by the same key pair: another group id,
    the other slot, later entropy. *)
Definition second_run : Result LSAGSignature :=
  fst (generateLSAGSignature Demo.sha256 Demo.sign "hello" "skA" "pkA"
         (Demo.group (Some "g9")) 1
         {| tape := tape Demo.rng; pos := 7 |}).

(** Signatures of two messages under the empty digest. *)
Definition collided (m : string) : Result LSAGSignature :=
  fst (generateLSAGSignature Demo.sha256' Demo.sign m "skA" "pkA"
         (Demo.group (Some "g1")) 0 Demo.rng).

(** A primitive that rejects every key. *)
Definition no_sign (data privateKey : string) : Result (list byte) :=
  Throw "Error: unsupported".

End Fixture.

(** * Properties *)

(** ** Encodings *)

Lemma hex_digit_inj (a b : N) :
  (a < 16)%N -> (b < 16)%N -> hex_digit a = hex_digit b -> a = b.
Proof.
  intros Ha Hb.
  assert (Hcases : forall n, (n < 16)%N ->
            In n [0; 1; 2; 3; 4; 5; 6; 7; 8; 9; 10; 11; 12; 13; 14; 15]%N).
  { intros n Hn. rewrite <- (N2Nat.id n).
    assert (Hk : N.to_nat n < 16) by lia.
    revert Hk. generalize (N.to_nat n). clear. intros k Hk.
    do 16 (destruct k as [|k]; [vm_compute; tauto|]). lia. }
  pose proof (Hcases a Ha) as Ia. pose proof (Hcases b Hb) as Ib.
  simpl in Ia, Ib.
  repeat (destruct Ia as [<-|Ia]; [|]);
    try contradiction;
    repeat (destruct Ib as [<-|Ib]; [|]);
    try contradiction; try reflexivity; discriminate.
Qed.

Lemma hex_of_byte_inj (a b : byte) : hex_of_byte a = hex_of_byte b -> a = b.
Proof.
  unfold hex_of_byte. intros H.
  pose proof (Byte.to_N_bounded a) as Ba.
  pose proof (Byte.to_N_bounded b) as Bb.
  injection H as Hhi Hlo.
  apply hex_digit_inj in Hhi;
    [| apply N.Div0.div_lt_upper_bound; lia
     | apply N.Div0.div_lt_upper_bound; lia].
  apply hex_digit_inj in Hlo; [| apply N.mod_lt; lia | apply N.mod_lt; lia].
  assert (Heq : Byte.to_N a = Byte.to_N b).
  { rewrite (N.div_mod' (Byte.to_N a) 16), (N.div_mod' (Byte.to_N b) 16).
    congruence. }
  pose proof (Byte.of_to_N a) as Oa. pose proof (Byte.of_to_N b) as Ob.
  congruence.
Qed.

Lemma hex_encode_inj (xs ys : list byte) :
  hex_encode xs = hex_encode ys -> xs = ys.
Proof.
  revert ys. induction xs as [|x xs IH]; intros [|y ys] H; simpl in H.
  - reflexivity.
  - discriminate.
  - discriminate.
  - injection H as H1 H2 H3.
    assert (x = y) as ->.
    { apply hex_of_byte_inj. unfold hex_of_byte. congruence. }
    f_equal. now apply IH.
Qed.

Lemma string_length_app (a b : string) :
  String.length (a ++ b) = String.length a + String.length b.
Proof. induction a as [|c a IH]; simpl; [reflexivity | now rewrite IH]. Qed.

Lemma string_app_inv_tail (a b t : string) : a ++ t = b ++ t -> a = b.
Proof.
  intros H.
  assert (Hlen : String.length a = String.length b).
  { apply (f_equal String.length) in H.
    rewrite !string_length_app in H. lia. }
  revert b H Hlen. induction a as [|c a IH]; intros [|d b] H Hlen;
    simpl in *; try discriminate; try reflexivity.
  injection H as -> H. f_equal. apply IH; [assumption | lia].
Qed.

Lemma string_app_inv_head_neq (a b t : string) : a <> b -> a ++ t <> b ++ t.
Proof. intros Hne H. apply Hne. eapply string_app_inv_tail, H. Qed.

(** ** The verifier's loop *)

Lemma entry_check (e : string) :
  String.eqb e "" || (String.length e <? 10)%nat = negb (entry_ok (Some e)).
Proof.
  unfold entry_ok. destruct e as [|c e]; [reflexivity|].
  simpl String.eqb. rewrite orb_false_l.
  destruct (Nat.ltb_spec (String.length (String c e)) 10),
           (Nat.leb_spec 10 (String.length (String c e)));
    simpl; try reflexivity; lia.
Qed.

Lemma entry_ok_Some (o : option string) :
  entry_ok o = true <-> exists e, o = Some e /\ 10 <= String.length e.
Proof.
  destruct o as [e|]; unfold entry_ok.
  - rewrite Nat.leb_le. split; [eauto | now intros (e' & [= <-] & H)].
  - split; [discriminate | now intros (e' & [=] & _)].
Qed.

Lemma ring_ok_spec (n : nat) (entries : list string) :
  ring_ok n entries = true <->
  forall i, i < n -> exists e, entries !! i = Some e /\ 10 <= String.length e.
Proof.
  unfold ring_ok. rewrite forallb_forall. split.
  - intros H i Hi. apply entry_ok_Some, H, in_seq. lia.
  - intros H i Hi%in_seq. apply entry_ok_Some, H. lia.
Qed.

Section VerifyLoop.

Variable sha256 : string -> list byte.
Variable s : LSAGSignature.
Variable G : LSAGGroup.t.

Let n := length (LSAGGroup.members G).
Let steps := zip (ringSignature s) (member_keys G).

Lemma member_publicKey_lt (i : nat) :
  i < n ->
  exists pk, member_keys G !! i = Some pk
             /\ member_publicKey (LSAGGroup.members G) i = Ok pk.
Proof.
  intros Hi. unfold member_publicKey, member_keys.
  destruct (lookup_lt_is_Some_2 (LSAGGroup.members G) i Hi) as [m Hm].
  exists (GroupMember.publicKey m). rewrite Hm. split; [|reflexivity].
  change (List.map GroupMember.publicKey (LSAGGroup.members G))
    with (GroupMember.publicKey <$> LSAGGroup.members G).
  now rewrite list_lookup_fmap, Hm.
Qed.

(** One iteration on a well-formed slot folds it into the chain. *)
Lemma verify_body_ok (i : nat) (c : string) (v : bool) (e pk : string) :
  member_keys G !! i = Some pk ->
  member_publicKey (LSAGGroup.members G) i = Ok pk ->
  ringSignature s !! i = Some e ->
  10 <= String.length e ->
  verify_body sha256 s G i (c, v)
    = Ok (Normal (Hash sha256 (c ++ e ++ pk), v))
  /\ steps !! i = Some (e, pk).
Proof.
  intros Hpk Hm He Hlen. split.
  - unfold verify_body. rewrite Hm. cbn [bind]. rewrite He, entry_check.
    unfold entry_ok. apply Nat.leb_le in Hlen. now rewrite Hlen.
  - unfold steps. rewrite lookup_zip_with, He. simpl.
    now rewrite Hpk.
Qed.

(** One iteration on a slot that fails the check breaks out. *)
Lemma verify_body_bad (i : nat) (c : string) (v : bool) :
  i < n ->
  entry_ok (ringSignature s !! i) = false ->
  verify_body sha256 s G i (c, v) = Ok (Break (c, false)).
Proof.
  intros Hi Hbad. destruct (member_publicKey_lt i Hi) as (pk & _ & Hm).
  unfold verify_body. rewrite Hm. cbn [bind].
  destruct (ringSignature s !! i) as [e|]; [|reflexivity].
  rewrite entry_check, Hbad. reflexivity.
Qed.

(** The loop runs to the bound when every remaining slot passes. *)
Lemma verify_from_all_ok (fuel i : nat) (c : string) :
  i + fuel <= n ->
  (forall j, i <= j < i + fuel -> entry_ok (ringSignature s !! j) = true) ->
  for_from fuel i (verify_body sha256 s G) (c, true)
    = Ok (i + fuel, (replay sha256 c (take fuel (drop i steps)), true)).
Proof.
  revert i c. induction fuel as [|fuel IH]; intros i c Hn Hall.
  - simpl. now rewrite Nat.add_0_r.
  - destruct (member_publicKey_lt i) as (pk & Hpk & Hm); [lia|].
    destruct (proj1 (entry_ok_Some _) (Hall i ltac:(lia)))
      as (e & He & Hlen).
    destruct (verify_body_ok i c true e pk Hpk Hm He Hlen) as [Hb Hs].
    cbn [for_from]. rewrite Hb.
    rewrite IH; [| lia | intros j Hj; apply Hall; lia].
    rewrite (drop_S _ _ _ Hs). simpl.
    repeat f_equal. lia.
Qed.

(** The loop exits at the first slot that fails, with the chain folded
    over the slots before it and nothing after it. *)
Lemma verify_from_first_bad (fuel i k : nat) (c : string) :
  i <= k < i + fuel -> i + fuel <= n ->
  (forall j, i <= j < k -> entry_ok (ringSignature s !! j) = true) ->
  entry_ok (ringSignature s !! k) = false ->
  for_from fuel i (verify_body sha256 s G) (c, true)
    = Ok (k, (replay sha256 c (take (k - i) (drop i steps)), false)).
Proof.
  revert i c. induction fuel as [|fuel IH]; intros i c Hk Hn Hall Hbad.
  - lia.
  - cbn [for_from]. destruct (Nat.eq_dec i k) as [->|Hne].
    + rewrite verify_body_bad; [| lia | assumption].
      now rewrite Nat.sub_diag.
    + destruct (member_publicKey_lt i) as (pk & Hpk & Hm); [lia|].
      destruct (proj1 (entry_ok_Some _) (Hall i ltac:(lia)))
        as (e & He & Hlen).
      destruct (verify_body_ok i c true e pk Hpk Hm He Hlen) as [Hb Hs].
      rewrite Hb.
      rewrite IH; [| lia | lia | intros j Hj; apply Hall; lia | assumption].
      rewrite (drop_S _ _ _ Hs).
      replace (k - i) with (S (k - S i)) by lia. reflexivity.
Qed.

(** Some slot below [m] fails exactly when there is a first such slot. *)
Lemma first_bad_exists (m : nat) :
  ring_ok m (ringSignature s) = false ->
  exists k, k < m
    /\ (forall j, j < k -> entry_ok (ringSignature s !! j) = true)
    /\ entry_ok (ringSignature s !! k) = false.
Proof.
  induction m as [|m IH]; intros Hbad; [discriminate|].
  unfold ring_ok in Hbad. rewrite seq_S, forallb_app in Hbad. simpl in Hbad.
  destruct (forallb _ (seq 0 m)) eqn:Hpre.
  - exists m. split; [lia|]. split.
    + intros j Hj. rewrite forallb_forall in Hpre. apply Hpre, in_seq. lia.
    + now rewrite andb_true_r in Hbad.
  - destruct (IH Hpre) as (k & Hk & Hbefore & Hk_bad).
    exists k. split; [lia | now split].
Qed.

Lemma verify_loop_valid :
  ring_ok n (ringSignature s) = true ->
  verify_loop sha256 s G
    = Ok (n, (replay sha256 (challenge s) (take n steps), true)).
Proof.
  intros Hok. unfold verify_loop, for_lt. fold n.
  rewrite verify_from_all_ok; [reflexivity | lia |].
  intros j Hj. unfold ring_ok in Hok. rewrite forallb_forall in Hok.
  apply Hok, in_seq. lia.
Qed.

Lemma verify_loop_first_bad (k : nat) :
  k < n ->
  (forall j, j < k -> entry_ok (ringSignature s !! j) = true) ->
  entry_ok (ringSignature s !! k) = false ->
  verify_loop sha256 s G
    = Ok (k, (replay sha256 (challenge s) (take k steps), false)).
Proof.
  intros Hk Hbefore Hbad. unfold verify_loop, for_lt. fold n.
  rewrite (verify_from_first_bad n 0 k); try assumption; try lia.
  - now rewrite Nat.sub_0_r.
  - intros j Hj. apply Hbefore. lia.
Qed.

(** The verifier never throws and answers [ring_ok]. *)
Lemma verifyLSAGSignature_ring_ok :
  verifyLSAGSignature sha256 s G = Ok (ring_ok n (ringSignature s)).
Proof.
  unfold verifyLSAGSignature.
  destruct (ring_ok n (ringSignature s)) eqn:Hok.
  - now rewrite verify_loop_valid.
  - destruct (first_bad_exists n Hok) as (k & Hk & Hbefore & Hbad).
    now rewrite (verify_loop_first_bad k).
Qed.

End VerifyLoop.

(** A loop only consults its body at the indices it visits. *)
Lemma for_from_ext {S : Type} (body body' : nat -> S -> Result (Completion S))
    (fuel i : nat) (st : S) :
  (forall j st', i <= j < i + fuel -> body j st' = body' j st') ->
  for_from fuel i body st = for_from fuel i body' st.
Proof.
  revert i st. induction fuel as [|fuel IH]; intros i st Hext; [reflexivity|].
  cbn [for_from]. rewrite <- Hext by lia.
  destruct (body i st) as [[st'|st']|err]; try reflexivity.
  apply IH. intros j st'' Hj. apply Hext. lia.
Qed.

Lemma verify_body_ext (sha256 : string -> list byte) (s s' : LSAGSignature)
    (G : LSAGGroup.t) (i : nat) (st : string * bool) :
  ringSignature s' !! i = ringSignature s !! i ->
  verify_body sha256 s' G i st = verify_body sha256 s G i st.
Proof. intros H. unfold verify_body. now rewrite H. Qed.

Lemma ring_ok_ext (n : nat) (entries entries' : list string) :
  (forall i, i < n -> entry_ok (entries' !! i) = entry_ok (entries !! i)) ->
  ring_ok n entries' = ring_ok n entries.
Proof.
  intros H. unfold ring_ok. apply eq_true_iff_eq.
  rewrite !forallb_forall.
  split; intros Hall i Hi; pose proof Hi as Hlt%in_seq;
    [rewrite <- H by lia | rewrite H by lia]; now apply Hall.
Qed.

(** ** Ring verification *)

(** C1. [verifyLSAGSignature] answers [true] exactly when every slot below
    [group.members.length] holds an entry of length at least 10; it never
    throws; an entry shorter than 10 in any such slot makes the answer
    [false]; the loop exits at the first failing slot, having folded only
    the slots before it into [challenge]; and the answer is the same for
    any other hash function, stored challenge, key image, message, group
    id and member keys, so the chained value never reaches it. *)
Theorem verify_structural_check_only
    (sha256 : string -> list byte) (s : LSAGSignature) (G : LSAGGroup.t) :
  let n := length (LSAGGroup.members G) in
  (verifyLSAGSignature sha256 s G = Ok true <->
     forall i, i < n ->
       exists e, ringSignature s !! i = Some e /\ 10 <= String.length e)
  /\ (exists b, verifyLSAGSignature sha256 s G = Ok b)
  /\ (forall i e, i < n -> ringSignature s !! i = Some e ->
        String.length e < 10 -> verifyLSAGSignature sha256 s G = Ok false)
  /\ (forall k, k < n ->
        (forall j, j < k -> entry_ok (ringSignature s !! j) = true) ->
        entry_ok (ringSignature s !! k) = false ->
        verify_loop sha256 s G
          = Ok (k, (replay sha256 (challenge s)
                      (take k (zip (ringSignature s) (member_keys G))),
                    false)))
  /\ (forall sha256' s' G',
        ringSignature s' = ringSignature s ->
        length (LSAGGroup.members G') = n ->
        verifyLSAGSignature sha256' s' G' = verifyLSAGSignature sha256 s G).
Proof.
  intros n. rewrite verifyLSAGSignature_ring_ok. fold n.
  split; [|split; [|split; [|split]]].
  - rewrite <- ring_ok_spec. split; [now intros [= ->] | now intros ->].
  - eauto.
  - intros i e Hi He Hlen. f_equal. apply not_true_is_false.
    intros Hok. destruct (proj1 (ring_ok_spec _ _) Hok i Hi) as (e' & He' & H).
    rewrite He in He'. injection He' as <-. lia.
  - intros k Hk Hbefore Hbad. now apply verify_loop_first_bad.
  - intros sha256' s' G' Hs HG.
    rewrite verifyLSAGSignature_ring_ok. now rewrite Hs, HG.
Qed.

(** C6. Replacing an entry of length at least 10 by any other string of
    length at least 10 leaves the verifier's answer unchanged. *)
Theorem verify_ignores_entry_content
    (sha256 : string -> list byte) (s : LSAGSignature) (G : LSAGGroup.t)
    (i : nat) (e e' : string) :
  ringSignature s !! i = Some e ->
  10 <= String.length e ->
  10 <= String.length e' ->
  e' <> e ->
  verifyLSAGSignature sha256
      (with_ringSignature s (<[i:=e']> (ringSignature s))) G
    = verifyLSAGSignature sha256 s G.
Proof.
  intros He Hlen Hlen' _. rewrite !verifyLSAGSignature_ring_ok.
  f_equal. apply ring_ok_ext. intros j _. cbn [with_ringSignature ringSignature].
  destruct (Nat.eq_dec i j) as [<-|Hne].
  - rewrite list_lookup_insert_eq by (eapply lookup_lt_Some; eassumption).
    rewrite He. unfold entry_ok.
    apply Nat.leb_le in Hlen, Hlen'. now rewrite Hlen, Hlen'.
  - now rewrite list_lookup_insert_ne.
Qed.

(** C8. The verifier's answer is a function of the number of members and
    of which of the first [group.members.length] slots are present and how
    long their entries are: two runs that agree on these agree on the
    answer, whatever the hash function, challenges, key images, messages,
    group ids and member keys are. *)
Theorem verify_noninterference
    (sha256 sha256' : string -> list byte) (s s' : LSAGSignature)
    (G G' : LSAGGroup.t) :
  length (LSAGGroup.members G') = length (LSAGGroup.members G) ->
  (forall i, i < length (LSAGGroup.members G) ->
     String.length <$> (ringSignature s' !! i)
       = String.length <$> (ringSignature s !! i)) ->
  verifyLSAGSignature sha256' s' G' = verifyLSAGSignature sha256 s G.
Proof.
  intros HG Hlen. rewrite !verifyLSAGSignature_ring_ok, HG.
  f_equal. apply ring_ok_ext. intros i Hi. specialize (Hlen i Hi).
  destruct (ringSignature s' !! i), (ringSignature s !! i);
    simpl in Hlen; try discriminate; [|reflexivity].
  injection Hlen as Hlen. unfold entry_ok. now rewrite Hlen.
Qed.

(** C9. The verifier is total: it never throws.  With fewer entries than
    members the answer is [false]; entries at or beyond
    [group.members.length] are never read: the whole loop (exit index,
    final challenge, flag) and the answer are the same for any signature
    with the same challenge and the same first [group.members.length]
    entries. *)
Theorem verify_length_mismatch
    (sha256 : string -> list byte) (s : LSAGSignature) (G : LSAGGroup.t) :
  let n := length (LSAGGroup.members G) in
  (exists b, verifyLSAGSignature sha256 s G = Ok b)
  /\ (length (ringSignature s) < n ->
        verifyLSAGSignature sha256 s G = Ok false)
  /\ (forall s',
        challenge s' = challenge s ->
        take n (ringSignature s') = take n (ringSignature s) ->
        verify_loop sha256 s' G = verify_loop sha256 s G
        /\ verifyLSAGSignature sha256 s' G = verifyLSAGSignature sha256 s G).
Proof.
  intros n. split; [|split].
  - rewrite verifyLSAGSignature_ring_ok. eauto.
  - intros Hshort. rewrite verifyLSAGSignature_ring_ok. fold n.
    f_equal. apply not_true_is_false. intros Hok.
    destruct (proj1 (ring_ok_spec _ _) Hok (length (ringSignature s)) Hshort)
      as (e & He & _).
    apply lookup_lt_Some in He. lia.
  - intros s' Hc Htake.
    assert (Hloop : verify_loop sha256 s' G = verify_loop sha256 s G).
    { unfold verify_loop, for_lt. rewrite Hc. apply for_from_ext.
      intros j st Hj. apply verify_body_ext.
      rewrite <- (lookup_take_lt (ringSignature s') n j) by (fold n; lia).
      rewrite <- (lookup_take_lt (ringSignature s) n j) by (fold n; lia).
      now rewrite Htake. }
    split; [assumption|]. unfold verifyLSAGSignature. now rewrite Hloop.
Qed.

(** C10. Against a group with no members every signature verifies. *)
Theorem verify_empty_group
    (sha256 : string -> list byte) (s : LSAGSignature) (G : LSAGGroup.t) :
  LSAGGroup.members G = [] ->
  verifyLSAGSignature sha256 s G = Ok true.
Proof.
  intros Hnil. unfold verifyLSAGSignature, verify_loop, for_lt.
  rewrite Hnil. reflexivity.
Qed.

(** ** Randomness *)

Lemma generateRandomScalar_eq (rng : Entropy) :
  generateRandomScalar rng
    = (scalar_at rng 0, {| tape := tape rng; pos := pos rng + 32 |}).
Proof.
  unfold generateRandomScalar, randomBytes, scalar_at.
  now rewrite Nat.mul_0_r, Nat.add_0_r.
Qed.

(** Drawing [n] scalars reads [n] consecutive 32-byte blocks of the tape,
    in index order. *)
Lemma Array_map_scalars (n : nat) (rng : Entropy) :
  Array_map (fun _ : nat => generateRandomScalar) (repeat 0 n) rng
    = (List.map (scalar_at rng) (seq 0 n),
       {| tape := tape rng; pos := pos rng + 32 * n |}).
Proof.
  revert rng. induction n as [|n IH]; intros rng.
  - simpl. destruct rng as [t p]. simpl. now rewrite Nat.add_0_r.
  - cbn [repeat Array_map]. rewrite generateRandomScalar_eq, IH.
    cbn [tape pos seq List.map]. f_equal.
    + f_equal. rewrite <- seq_shift, List.map_map.
      apply List.map_ext. intros k. unfold scalar_at. cbn [tape pos].
      do 3 f_equal. lia.
    + f_equal. lia.
Qed.

(** ** The constructor's loop *)

Section GenerateLoop.

Variable sha256 : string -> list byte.
Variable sign_sha256 : string -> string -> Result (list byte).
Variables (m sk : string) (members : list GroupMember.t) (signerIndex : Z).
Variable randomValues : list string.

Let n := length members.
Let pks := List.map GroupMember.publicKey members.
Let body :=
  generate_body sha256 sign_sha256 m sk members signerIndex randomValues.

Hypothesis randomValues_length : length randomValues = n.

Lemma generate_lookups (i : nat) :
  i < n ->
  exists pk r, pks !! i = Some pk /\ randomValues !! i = Some r
               /\ member_publicKey members i = Ok pk.
Proof.
  intros Hi.
  destruct (lookup_lt_is_Some_2 members i Hi) as [mb Hmb].
  destruct (lookup_lt_is_Some_2 randomValues i) as [r Hr]; [lia|].
  exists (GroupMember.publicKey mb), r. repeat split; try assumption.
  - unfold pks.
    change (List.map GroupMember.publicKey members)
      with (GroupMember.publicKey <$> members).
    now rewrite list_lookup_fmap, Hmb.
  - unfold member_publicKey. now rewrite Hmb.
Qed.

(** From index [i], the loop writes exactly the entries of
    [ring_chain_spec] into slots [i .. i + fuel) and ends with its
    chained value; it throws exactly when the signing step fails. *)
Lemma generate_from_spec (fuel i : nat) (ring : list string) (c : string) :
  i + fuel <= n -> length ring = n ->
  match ring_chain_spec sha256 sign_sha256 m sk signerIndex i
          (take fuel (drop i pks)) (take fuel (drop i randomValues)) c with
  | Some (entries, c') =>
      for_from fuel i body (ring, c)
        = Ok (i + fuel,
              ((take i ring ++ entries ++ drop (i + fuel) ring)%list, c'))
  | None => is_Throw (for_from fuel i body (ring, c))
  end.
Proof.
  revert i ring c. induction fuel as [|fuel IH]; intros i ring c Hn Hring.
  - simpl. rewrite Nat.add_0_r. now rewrite take_drop.
  - destruct (generate_lookups i) as (pk & r & Hpk & Hr & Hm); [lia|].
    rewrite (drop_S _ _ _ Hpk), (drop_S _ _ _ Hr).
    cbn [take firstn ring_chain_spec for_from].
    unfold body at 1 3. unfold generate_body.
    rewrite Hr. cbn [to_str].
    unfold Sign_base64, createSign_sign, Hash_base64, createHash_digest.
    assert (Hi : i < length ring) by lia.
    destruct (Z.eqb (Z.of_nat i) signerIndex);
      [destruct (sign_sha256 (m ++ c) sk) as [raw|err];
         [|cbn [bind]; now exists err] |];
      cbn [bind encode];
      rewrite Hm; cbn [bind];
      rewrite (list_lookup_insert_eq ring i _ Hi); cbn [to_str];
      match goal with
      | |- context [<[i:=?e]> ring] =>
          specialize (IH (S i) (<[i:=e]> ring)
                         (hex_encode (sha256 (c ++ e ++ pk)))
                         ltac:(lia)
                         ltac:(now rewrite length_insert));
          rewrite (take_S_r (<[i:=e]> ring) i e)
            in IH by (now apply list_lookup_insert_eq);
          rewrite take_insert_ge, drop_insert_lt in IH by lia
      end;
      fold body; unfold Hash;
      destruct (ring_chain_spec _ _ _ _ _ _ _ _ _) as [[entries c']|];
      try assumption;
      rewrite IH; replace (i + S fuel) with (S i + fuel) by lia;
      now rewrite <- app_assoc.
Qed.

Lemma ring_chain_spec_length (i : nat) (ps rs entries : list string)
    (c c' : string) :
  ring_chain_spec sha256 sign_sha256 m sk signerIndex i ps rs c
    = Some (entries, c') ->
  length entries = min (length ps) (length rs).
Proof.
  revert i rs entries c c'.
  induction ps as [|p ps IH]; intros i [|r rs] entries c c' H;
    cbn [ring_chain_spec] in H; try (injection H as <- _; reflexivity).
  destruct (if Z.eqb (Z.of_nat i) signerIndex then _ else _) as [e|];
    [|discriminate].
  destruct (ring_chain_spec _ _ _ _ _ _ _ _ _) as [[es c'']|] eqn:Hrec;
    [|discriminate].
  injection H as <- _. cbn [length]. now rewrite (IH _ _ _ _ _ Hrec).
Qed.

(** The chain of the specification is defined whenever signing with
    [sk] succeeds. *)
Lemma ring_chain_spec_defined (i : nat) (ps rs : list string) (c : string) :
  (forall data, exists raw, sign_sha256 data sk = Ok raw) ->
  exists r, ring_chain_spec sha256 sign_sha256 m sk signerIndex i ps rs c
            = Some r.
Proof.
  intros Hsign. revert i rs c.
  induction ps as [|p ps IH]; intros i [|r rs] c;
    cbn [ring_chain_spec]; eauto.
  assert (He : exists e,
             (if Z.eqb (Z.of_nat i) signerIndex
              then Sign_base64 sign_sha256 (m ++ c) sk
              else Some (Hash_base64 sha256 (m ++ r ++ c))) = Some e).
  { destruct (Z.eqb _ _); [|eauto].
    unfold Sign_base64. destruct (Hsign (m ++ c)) as [raw ->]. eauto. }
  destruct He as [e ->].
  destruct (IH (S i) rs (Hash sha256 (c ++ e ++ p))) as [[es c'] ->]. eauto.
Qed.

End GenerateLoop.

(** ** Ring construction *)

Section Generate.

Variable sha256 : string -> list byte.
Variable sign_sha256 : string -> string -> Result (list byte).
Variables (m sk pk : string) (G : LSAGGroup.t) (signerIndex : Z).
Variable rng : Entropy.

Let n := length (LSAGGroup.members G).
Let rs := List.map (scalar_at rng) (seq 0 n).
Let seed :=
  Hash sha256 (m ++ JSON_stringify (member_keys G) ++ to_str (rs !! 0)).
Let run := generateLSAGSignature sha256 sign_sha256 m sk pk G signerIndex rng.

(** What a run of [generateLSAGSignature] amounts to. *)
Lemma generateLSAGSignature_run :
  snd run = {| tape := tape rng; pos := pos rng + 32 * n |}
  /\ match ring_chain_spec sha256 sign_sha256 m sk signerIndex 0
             (member_keys G) rs seed with
     | Some (entries, c) =>
         length entries = n
         /\ fst run =
              if not_ (LSAGGroup.id G) then Throw missing_id_error
              else Ok {| ringSignature := entries;
                         challenge := c;
                         keyImage := createKeyImage sha256 m sk pk;
                         message := m;
                         groupId := to_str (LSAGGroup.id G) |}
     | None => is_Throw (fst run)
     end.
Proof.
  unfold run, generateLSAGSignature. rewrite Array_map_scalars.
  fold n rs. cbn [fst snd]. split; [reflexivity|].
  assert (Hrs : length rs = n) by (unfold rs; now rewrite length_map, length_seq).
  assert (Hpks : length (member_keys G) = n)
    by (unfold member_keys; now rewrite length_map).
  pose proof (generate_from_spec sha256 sign_sha256 m sk
                (LSAGGroup.members G) signerIndex rs Hrs n 0
                (repeat "" n) seed ltac:(fold n; lia)
                ltac:(now rewrite repeat_length)) as Hloop.
  fold n in Hloop. unfold drop at 1 2 in Hloop.
  rewrite !take_ge in Hloop by (fold (member_keys G); lia).
  fold (member_keys G) in Hloop.
  unfold for_lt.
  change (createHash_digest sha256
            (m ++ JSON_stringify
                    (List.map GroupMember.publicKey (LSAGGroup.members G))
               ++ to_str (rs !! 0)) hex) with seed.
  destruct (ring_chain_spec _ _ _ _ _ _ _ _ _) as [[entries c]|] eqn:Hspec.
  - split.
    + rewrite (ring_chain_spec_length _ _ _ _ _ _ _ _ _ _ _ Hspec). lia.
    + rewrite Hloop. cbn [bind take firstn app].
      rewrite drop_ge by (rewrite repeat_length; lia).
      rewrite app_nil_r.
      destruct (not_ (LSAGGroup.id G)); reflexivity.
  - destruct Hloop as [err ->]. cbn [bind try_catch]. now eexists.
Qed.

End Generate.

Lemma not_id_false (o : option string) :
  not_ o = false <-> exists gid, o = Some gid /\ gid <> "".
Proof.
  destruct o as [gid|]; cbn [not_].
  - rewrite String.eqb_neq. split; [eauto | now intros (g & [= <-] & H)].
  - split; [discriminate | now intros (g & [=] & _)].
Qed.

(** C3. With the drawn scalars [r_0 .. r_(n-1)] read off the entropy tape,
    [generateLSAGSignature] on a group with at least one member returns a
    signature exactly when the record of specification 4.2 is defined
    (the group id is a non-empty string and the signing step succeeds),
    and then returns that record: key image [Hash(Hash(m||pk)||sk)], seed
    from [r_0] only, entries in ascending order with the signature at
    [signerIndex] and hashes elsewhere, [challenge] the value of the chain
    after the loop, and exactly [n] entries.  The run consumes [n] scalars
    of entropy. *)
Theorem generate_refines_spec
    (sha256 : string -> list byte)
    (sign_sha256 : string -> string -> Result (list byte))
    (m sk pk : string) (G : LSAGGroup.t) (signerIndex : Z) (rng : Entropy) :
  LSAGGroup.members G <> [] ->
  let n := length (LSAGGroup.members G) in
  let rs := List.map (scalar_at rng) (seq 0 n) in
  let run := generateLSAGSignature sha256 sign_sha256 m sk pk G signerIndex rng in
  (forall sig,
     fst run = Ok sig <->
     exists gid, LSAGGroup.id G = Some gid /\ gid <> ""
       /\ buildRing_spec sha256 sign_sha256 m sk pk G signerIndex rs gid
            = Some sig)
  /\ (forall sig, fst run = Ok sig -> length (ringSignature sig) = n)
  /\ snd run = {| tape := tape rng; pos := pos rng + 32 * n |}.
Proof.
  intros Hne n rs run.
  destruct (generateLSAGSignature_run sha256 sign_sha256 m sk pk G
              signerIndex rng) as [Hsnd Hrun].
  fold n run in Hsnd, Hrun. fold rs in Hrun. unfold member_keys in Hrun.
  assert (Hrs : exists r_0 rest, rs = r_0 :: rest).
  { unfold rs, n. destruct (LSAGGroup.members G); [congruence|].
    cbn [length seq List.map]. eauto. }
  destruct Hrs as (r_0 & rest & Hrs). clearbody rs run. subst rs.
  change ((r_0 :: rest) !! 0) with (Some r_0) in Hrun. cbn [to_str] in Hrun.
  unfold buildRing_spec.
  destruct (ring_chain_spec _ _ _ _ _ _ _ _ _) as [[entries c]|].
  - destruct Hrun as [Hlen Hrun]. rewrite Hrun.
    destruct (not_ (LSAGGroup.id G)) eqn:Hid.
    + split; [|split; [discriminate | assumption]].
      intros sig. split; [discriminate|].
      intros (gid & Hgid & Hnonempty & _).
      assert (not_ (LSAGGroup.id G) = false) by (apply not_id_false; eauto).
      congruence.
    + apply not_id_false in Hid as (gid & Hgid & Hnonempty).
      rewrite Hgid. cbn [to_str].
      split; [|split; [now intros sig [= <-] | assumption]].
      intros sig. split.
      * intros [= <-]. exists gid. repeat split; assumption.
      * intros (gid' & [= <-] & _ & [= <-]). reflexivity.
  - destruct Hrun as [err Hrun]. rewrite Hrun.
    split; [|split; [discriminate | assumption]].
    intros sig. split; [discriminate | now intros (gid & _ & _ & [=])].
Qed.

(** C7, as the code has it.  [generateLSAGSignature] throws when
    [group.id] is absent or the empty string; when [group.id] is a
    non-empty string and the signing primitive succeeds with the private
    key, it returns a signature whose [groupId] is [group.id]. *)
Theorem generate_requires_nonempty_group_id
    (sha256 : string -> list byte)
    (sign_sha256 : string -> string -> Result (list byte))
    (m sk pk : string) (G : LSAGGroup.t) (signerIndex : Z) (rng : Entropy) :
  let run := generateLSAGSignature sha256 sign_sha256 m sk pk G signerIndex rng in
  (LSAGGroup.id G = None \/ LSAGGroup.id G = Some "" -> is_Throw (fst run))
  /\ (forall gid,
        LSAGGroup.id G = Some gid -> gid <> "" ->
        (forall data, exists raw, sign_sha256 data sk = Ok raw) ->
        exists sig, fst run = Ok sig /\ groupId sig = gid).
Proof.
  intros run.
  destruct (generateLSAGSignature_run sha256 sign_sha256 m sk pk G
              signerIndex rng) as [_ Hrun].
  fold run in Hrun. split.
  - intros Hid.
    assert (Hnot : not_ (LSAGGroup.id G) = true)
      by (destruct Hid as [-> | ->]; reflexivity).
    destruct (ring_chain_spec _ _ _ _ _ _ _ _ _) as [[entries c]|];
      [|assumption].
    destruct Hrun as [_ Hrun]. rewrite Hrun, Hnot. now eexists.
  - intros gid Hgid Hnonempty Hsign.
    match type of Hrun with
    | match ring_chain_spec _ _ _ _ _ ?i ?ps ?rs ?c with _ => _ end =>
        destruct (ring_chain_spec_defined sha256 sign_sha256 m sk
                    signerIndex i ps rs c Hsign) as [[entries c'] Hspec]
    end.
    rewrite Hspec in Hrun. destruct Hrun as [_ Hrun].
    assert (Hnot : not_ (LSAGGroup.id G) = false)
      by (apply not_id_false; eauto).
    rewrite Hnot, Hgid in Hrun. eexists. split; [exact Hrun | reflexivity].
Qed.

(** C2. A signature returned by [generateLSAGSignature] for a group
    verifies against that group whenever each of its entries has length at
    least 10, and so does the signature after its entries are replaced by
    any strings of length at least 10, one per slot. *)
Theorem generate_then_verify
    (sha256 : string -> list byte)
    (sign_sha256 : string -> string -> Result (list byte))
    (m sk pk : string) (G : LSAGGroup.t) (signerIndex : Z) (rng : Entropy)
    (sig : LSAGSignature) :
  fst (generateLSAGSignature sha256 sign_sha256 m sk pk G signerIndex rng)
    = Ok sig ->
  Forall (fun e => 10 <= String.length e) (ringSignature sig) ->
  verifyLSAGSignature sha256 sig G = Ok true
  /\ (forall entries',
        length entries' = length (ringSignature sig) ->
        Forall (fun e => 10 <= String.length e) entries' ->
        verifyLSAGSignature sha256 (with_ringSignature sig entries') G
          = Ok true).
Proof.
  intros Hgen Hlong.
  assert (Hlen : length (ringSignature sig) = length (LSAGGroup.members G)).
  { destruct (generateLSAGSignature_run sha256 sign_sha256 m sk pk G
                signerIndex rng) as [_ Hrun].
    destruct (ring_chain_spec _ _ _ _ _ _ _ _ _) as [[entries c]|].
    - destruct Hrun as [Hn Hrun]. rewrite Hrun in Hgen.
      destruct (not_ _); [discriminate|]. now injection Hgen as <-.
    - destruct Hrun as [err Hrun]. congruence. }
  assert (Hall : forall entries : list string,
             length entries = length (LSAGGroup.members G) ->
             Forall (fun e => 10 <= String.length e) entries ->
             ring_ok (length (LSAGGroup.members G)) entries = true).
  { intros entries Hn Hforall. apply ring_ok_spec. intros i Hi.
    destruct (lookup_lt_is_Some_2 entries i) as [e He]; [lia|].
    exists e. split; [assumption|].
    exact (proj1 (Forall_lookup _ _) Hforall i e He). }
  split.
  - rewrite verifyLSAGSignature_ring_ok. f_equal. now apply Hall.
  - intros entries' Hn Hforall. rewrite verifyLSAGSignature_ring_ok.
    f_equal. apply Hall; [cbn; lia | assumption].
Qed.

(** ** Key images and linkability *)

(** C4. [createKeyImage] is the hex text of [Hash(Hash(m || pk) || sk)],
    the inner digest entering as hex text.  It is a total function of its
    three arguments (no error case, equal inputs give equal outputs), and
    it depends on the message: two messages with the same key image under
    the same keys exhibit a collision of the hash function. *)
Theorem createKeyImage_double_hash
    (sha256 : string -> list byte) (m sk pk : string) :
  createKeyImage sha256 m sk pk = deriveKeyImage_spec sha256 m sk pk
  /\ createKeyImage sha256 m sk pk
       = hex_encode (sha256 (hex_encode (sha256 (m ++ pk)) ++ sk))
  /\ (forall m' sk' pk',
        m' = m -> sk' = sk -> pk' = pk ->
        createKeyImage sha256 m' sk' pk' = createKeyImage sha256 m sk pk)
  /\ (forall m',
        m' <> m ->
        createKeyImage sha256 m' sk pk = createKeyImage sha256 m sk pk ->
        exists x y, x <> y /\ sha256 x = sha256 y).
Proof.
  split; [reflexivity|]. split; [reflexivity|]. split.
  - now intros m' sk' pk' -> -> ->.
  - intros m' Hne Heq. unfold createKeyImage, createHash_digest in Heq.
    cbn [encode] in Heq. apply hex_encode_inj in Heq.
    destruct (string_dec (hex_encode (sha256 (m' ++ pk)))
                         (hex_encode (sha256 (m ++ pk)))) as [Hin|Hin].
    + apply hex_encode_inj in Hin.
      exists (m' ++ pk), (m ++ pk).
      split; [now apply string_app_inv_head_neq | assumption].
    + eexists _, _. split; [|exact Heq].
      now apply string_app_inv_head_neq.
Qed.

(** C5. [areLSAGSignaturesLinked] is exact string equality of the two key
    images and of nothing else: it is reflexive, it does not change when
    the other fields change, and signatures of different groups with equal
    key images are linked. *)
Theorem areLinked_keyImage_equality (a b : LSAGSignature) :
  areLSAGSignaturesLinked a b = String.eqb (keyImage a) (keyImage b)
  /\ (areLSAGSignaturesLinked a b = true <-> keyImage a = keyImage b)
  /\ areLSAGSignaturesLinked a a = true
  /\ (forall a' b',
        keyImage a' = keyImage a -> keyImage b' = keyImage b ->
        areLSAGSignaturesLinked a' b' = areLSAGSignaturesLinked a b)
  /\ (groupId a <> groupId b -> keyImage a = keyImage b ->
        areLSAGSignaturesLinked a b = true).
Proof.
  unfold areLSAGSignaturesLinked. repeat split.
  - now intros H%String.eqb_eq.
  - now intros H%String.eqb_eq.
  - apply String.eqb_refl.
  - now intros a' b' -> ->.
  - now intros _ H%String.eqb_eq.
Qed.

(** ** Concrete runs *)

Example hex_encode_ex :
  hex_encode [x00; x0f; xa5; xff]%byte = "000fa5ff".
Proof. reflexivity. Qed.

Example base64_encode_ex :
  base64_encode [x4d; x61; x6e]%byte = "TWFu"
  /\ base64_encode [x4d; x61]%byte = "TWE="
  /\ base64_encode [x4d]%byte = "TQ=="
  /\ base64_encode [xfb; xff; xbe; x00]%byte = "+/++AA==".
Proof. repeat split; reflexivity. Qed.

Example JSON_stringify_ex :
  String.length (JSON_stringify ["pkA"; "pkB"]) = 13
  /\ JSON_stringify [] = "[]"
  /\ json_escape (String (ascii_of_N 10) "a\b") = "\na\\b".
Proof. repeat split; reflexivity. Qed.

Example generate_demo :
  generateLSAGSignature Demo.sha256 Demo.sign "hello" "skA" "pkA"
      (Demo.group (Some "g1")) 0 Demo.rng
    = (Ok Demo.signature, {| tape := tape Demo.rng; pos := 64 |}).
Proof. reflexivity. Qed.

Example generate_no_members :
  fst (generateLSAGSignature Demo.sha256 Demo.sign "hello" "skA" "pkA"
         Demo.empty_group 0 Demo.rng)
    = Ok {| ringSignature := [];
            challenge := Hash Demo.sha256 "hello[]undefined";
            keyImage := createKeyImage Demo.sha256 "hello" "skA" "pkA";
            message := "hello";
            groupId := "g0" |}.
Proof. reflexivity. Qed.

Example generate_bad_key :
  is_Throw (fst (generateLSAGSignature Demo.sha256 Demo.sign "hello" "" "pkA"
                   (Demo.group (Some "g1")) 0 Demo.rng)).
Proof. eexists. reflexivity. Qed.

Example verify_demo :
  verifyLSAGSignature Demo.sha256 Demo.signature (Demo.group (Some "g1"))
    = Ok true
  /\ verifyLSAGSignature Demo.sha256 Demo.forged (Demo.group (Some "g1"))
       = Ok true
  /\ verifyLSAGSignature Demo.sha256 Demo.truncated (Demo.group (Some "g1"))
       = Ok false
  /\ verifyLSAGSignature Demo.sha256 Demo.short (Demo.group (Some "g1"))
       = Ok false.
Proof. repeat split; reflexivity. Qed.

Example verify_loop_demo :
  verify_loop Demo.sha256 Demo.truncated (Demo.group (Some "g1"))
    = Ok (1, (Hash Demo.sha256
                (challenge Demo.signature
                   ++ "c2tBaGVsbG82ODY1NmM2YzZmNWIyMjcwNmI0MTIyMmM=" ++ "pkA"),
              false)).
Proof. reflexivity. Qed.

Example keyImage_demo :
  createKeyImage Demo.sha256 "m1" "sk" "pk"
    <> createKeyImage Demo.sha256 "m2" "sk" "pk".
Proof. discriminate. Qed.

(** ** The statements at concrete inputs *)

Lemma verify_structural_check_only_witness :
  verifyLSAGSignature Demo.sha256 Demo.truncated (Demo.group (Some "g1"))
    = Ok false
  /\ verifyLSAGSignature Demo.sha256' Demo.forged Demo.other_group
       = verifyLSAGSignature Demo.sha256 Demo.forged (Demo.group (Some "g1")).
Proof.
  split.
  - apply (proj1 (proj2 (proj2
             (verify_structural_check_only Demo.sha256 Demo.truncated
                (Demo.group (Some "g1"))))) 1 "aGVsbG8wM");
      [simpl; lia | reflexivity | simpl; lia].
  - apply (proj2 (proj2 (proj2 (proj2
             (verify_structural_check_only Demo.sha256 Demo.forged
                (Demo.group (Some "g1"))))))); reflexivity.
Defined.

Lemma generate_then_verify_witness :
  fst (generateLSAGSignature Demo.sha256 Demo.sign "hello" "skA" "pkA"
         (Demo.group (Some "g1")) 0 Demo.rng) = Ok Demo.signature
  /\ Forall (fun e => 10 <= String.length e) (ringSignature Demo.signature)
  /\ verifyLSAGSignature Demo.sha256 Demo.signature (Demo.group (Some "g1"))
       = Ok true
  /\ verifyLSAGSignature Demo.sha256
       (with_ringSignature Demo.signature (ringSignature Demo.forged))
       (Demo.group (Some "g1")) = Ok true.
Proof.
  assert (Hgen : fst (generateLSAGSignature Demo.sha256 Demo.sign "hello"
                        "skA" "pkA" (Demo.group (Some "g1")) 0 Demo.rng)
                 = Ok Demo.signature) by reflexivity.
  assert (Hlong : Forall (fun e => 10 <= String.length e)
                    (ringSignature Demo.signature))
    by (repeat constructor; simpl; lia).
  destruct (generate_then_verify _ _ _ _ _ _ _ _ _ Hgen Hlong) as [Hv Hr].
  split; [exact Hgen|]. split; [exact Hlong|]. split; [exact Hv|].
  apply Hr; [reflexivity | repeat constructor; simpl; lia].
Defined.

Lemma generate_refines_spec_witness :
  LSAGGroup.members (Demo.group (Some "g1")) <> []
  /\ exists gid,
       LSAGGroup.id (Demo.group (Some "g1")) = Some gid /\ gid <> ""
       /\ buildRing_spec Demo.sha256 Demo.sign "hello" "skA" "pkA"
            (Demo.group (Some "g1")) 0
            [scalar_at Demo.rng 0; scalar_at Demo.rng 1] gid
          = Some Demo.signature.
Proof.
  assert (Hne : LSAGGroup.members (Demo.group (Some "g1")) <> [])
    by discriminate.
  split; [exact Hne|].
  apply (proj1 (proj1 (generate_refines_spec Demo.sha256 Demo.sign "hello"
                         "skA" "pkA" (Demo.group (Some "g1")) 0 Demo.rng Hne)
                 Demo.signature)).
  reflexivity.
Defined.

Lemma verify_ignores_entry_content_witness :
  verifyLSAGSignature Demo.sha256
      (with_ringSignature Demo.signature
         (<[0:="C2tBaGVsbG82ODY1NmM2YzZmNWIyMjcwNmI0MTIyMmM="]>
            (ringSignature Demo.signature)))
      (Demo.group (Some "g1"))
    = verifyLSAGSignature Demo.sha256 Demo.signature (Demo.group (Some "g1")).
Proof.
  apply (verify_ignores_entry_content Demo.sha256 Demo.signature
           (Demo.group (Some "g1")) 0
           "c2tBaGVsbG82ODY1NmM2YzZmNWIyMjcwNmI0MTIyMmM="
           "C2tBaGVsbG82ODY1NmM2YzZmNWIyMjcwNmI0MTIyMmM=");
    [reflexivity | simpl; lia | simpl; lia | discriminate].
Defined.

Lemma generate_requires_nonempty_group_id_witness :
  is_Throw (fst (generateLSAGSignature Demo.sha256 Demo.sign "hello" "skA"
                   "pkA" (Demo.group None) 0 Demo.rng))
  /\ exists sig,
       fst (generateLSAGSignature Demo.sha256 Demo.sign "hello" "skA" "pkA"
              (Demo.group (Some "g1")) 0 Demo.rng) = Ok sig
       /\ groupId sig = "g1".
Proof.
  split.
  - apply (proj1 (generate_requires_nonempty_group_id Demo.sha256 Demo.sign
                    "hello" "skA" "pkA" (Demo.group None) 0 Demo.rng)).
    left. reflexivity.
  - apply (proj2 (generate_requires_nonempty_group_id Demo.sha256 Demo.sign
                    "hello" "skA" "pkA" (Demo.group (Some "g1")) 0 Demo.rng)
             "g1");
      [reflexivity | discriminate | intros data; eexists; reflexivity].
Defined.

(** C7 as stated fails: a group whose id is present but empty is rejected
    even though the signing primitive succeeds. *)
Lemma generate_rejects_empty_group_id :
  LSAGGroup.id (Demo.group (Some "")) = Some ""
  /\ (forall data, exists raw, Demo.sign data "skA" = Ok raw)
  /\ fst (generateLSAGSignature Demo.sha256 Demo.sign "hello" "skA" "pkA"
            (Demo.group (Some "")) 0 Demo.rng) = Throw missing_id_error
  /\ ~ (exists sig,
          fst (generateLSAGSignature Demo.sha256 Demo.sign "hello" "skA" "pkA"
                 (Demo.group (Some "")) 0 Demo.rng) = Ok sig
          /\ groupId sig = "").
Proof.
  split; [reflexivity|]. split; [intros data; eexists; reflexivity|].
  split; [reflexivity|]. intros (sig & H & _). discriminate H.
Qed.

Lemma verify_noninterference_witness :
  verifyLSAGSignature Demo.sha256' Demo.forged Demo.other_group
    = verifyLSAGSignature Demo.sha256 Demo.signature (Demo.group (Some "g1")).
Proof.
  apply verify_noninterference; [reflexivity|].
  intros [|[|i]] Hi; [reflexivity | reflexivity | simpl in Hi; lia].
Defined.

Lemma verify_length_mismatch_witness :
  verifyLSAGSignature Demo.sha256 Demo.short (Demo.group (Some "g1"))
    = Ok false
  /\ verify_loop Demo.sha256
       (with_ringSignature Demo.signature
          (ringSignature Demo.signature ++ ["extra"; ""])%list)
       (Demo.group (Some "g1"))
     = verify_loop Demo.sha256 Demo.signature (Demo.group (Some "g1")).
Proof.
  split.
  - apply (proj1 (proj2 (verify_length_mismatch Demo.sha256 Demo.short
                           (Demo.group (Some "g1"))))).
    simpl. lia.
  - apply (proj2 (proj2 (verify_length_mismatch Demo.sha256 Demo.signature
                           (Demo.group (Some "g1"))))); reflexivity.
Defined.

Lemma verify_empty_group_witness :
  verifyLSAGSignature Demo.sha256 Demo.forged Demo.empty_group = Ok true.
Proof. apply verify_empty_group. reflexivity. Defined.

Lemma createKeyImage_double_hash_witness :
  exists x y, x <> y /\ Demo.sha256' x = Demo.sha256' y.
Proof.
  apply (proj2 (proj2 (proj2
           (createKeyImage_double_hash Demo.sha256' "m1" "sk" "pk"))) "m2");
    [discriminate | reflexivity].
Defined.

Lemma areLinked_keyImage_equality_witness :
  areLSAGSignaturesLinked Demo.signature
    {| ringSignature := []; challenge := ""; keyImage := keyImage Demo.signature;
       message := "other"; groupId := "g2" |} = true.
Proof.
  apply (proj2 (proj2 (proj2 (proj2
           (areLinked_keyImage_equality Demo.signature _)))));
    [discriminate | reflexivity].
Defined.

(** ** Insertion-ordered maps *)

Section JsMapFacts.

Context {V : Type}.
Implicit Types (m : JsMap.t V) (k : string) (v : V).

Lemma JsMap_get_set_eq m k v : JsMap.get (JsMap.set m k v) k = Some v.
Proof.
  induction m as [|[k' v'] m IH]; cbn [JsMap.set JsMap.get].
  - now rewrite String.eqb_refl.
  - destruct (String.eqb k' k) eqn:E; cbn [JsMap.get]; now rewrite E.
Qed.

Lemma JsMap_get_set_ne m k k' v :
  k <> k' -> JsMap.get (JsMap.set m k v) k' = JsMap.get m k'.
Proof.
  intros Hne. induction m as [|[k0 v0] m IH]; cbn [JsMap.set JsMap.get].
  - apply String.eqb_neq in Hne. now rewrite Hne.
  - destruct (String.eqb k0 k) eqn:E; cbn [JsMap.get].
    + apply String.eqb_eq in E. subst k0.
      apply String.eqb_neq in Hne. now rewrite Hne.
    + now rewrite IH.
Qed.

Lemma JsMap_set_set m k v1 v2 :
  JsMap.set (JsMap.set m k v1) k v2 = JsMap.set m k v2.
Proof.
  induction m as [|[k' v'] m IH]; cbn [JsMap.set].
  - now rewrite String.eqb_refl.
  - destruct (String.eqb k' k) eqn:E; cbn [JsMap.set]; rewrite E;
      [reflexivity | now rewrite IH].
Qed.

Lemma JsMap_get_Some_In m k v :
  JsMap.get m k = Some v -> In k (List.map fst m).
Proof.
  induction m as [|[k' v'] m IH]; cbn [JsMap.get]; [discriminate|].
  destruct (String.eqb_spec k' k) as [->|Hne]; intros H.
  - now left.
  - right. now apply IH.
Qed.

Lemma JsMap_get_None_not_In m k :
  JsMap.get m k = None -> ~ In k (List.map fst m).
Proof.
  induction m as [|[k' v'] m IH]; cbn [JsMap.get]; [now intros _ []|].
  destruct (String.eqb_spec k' k) as [->|Hne]; [discriminate|].
  intros H [Heq|Hin]; [now apply Hne | now apply IH].
Qed.

(** [set] keeps the keys where they are and appends a new key. *)
Lemma JsMap_keys_set m k v :
  List.map fst (JsMap.set m k v)
    = match JsMap.get m k with
      | Some _ => List.map fst m
      | None => (List.map fst m ++ [k])%list
      end.
Proof.
  induction m as [|[k' v'] m IH]; cbn [JsMap.set JsMap.get]; [reflexivity|].
  destruct (String.eqb k' k) eqn:E; cbn [List.map fst]; [reflexivity|].
  rewrite IH. now destruct (JsMap.get m k).
Qed.

Lemma JsMap_wf_set m k v : JsMap.wf m -> JsMap.wf (JsMap.set m k v).
Proof.
  unfold JsMap.wf. intros Hwf. rewrite JsMap_keys_set.
  destruct (JsMap.get m k) eqn:Hget; [assumption|].
  apply NoDup_app. split; [assumption|]. split; [|apply NoDup_singleton].
  intros x Hx ->%list_elem_of_singleton.
  apply list_elem_of_In in Hx. now apply (JsMap_get_None_not_In m k).
Qed.

Lemma JsMap_delete_found m k :
  fst (JsMap.delete m k) = true <-> exists v, JsMap.get m k = Some v.
Proof.
  induction m as [|[k' v'] m IH]; cbn [JsMap.delete JsMap.get].
  - split; [discriminate | now intros [v [=]]].
  - destruct (String.eqb k' k); [split; eauto|].
    destruct (JsMap.delete m k) as [found rest]. exact IH.
Qed.

Lemma JsMap_get_delete_ne m k k' :
  k <> k' -> JsMap.get (snd (JsMap.delete m k)) k' = JsMap.get m k'.
Proof.
  intros Hne. induction m as [|[k0 v0] m IH]; cbn [JsMap.delete JsMap.get];
    [reflexivity|].
  destruct (String.eqb_spec k0 k) as [->|Hk0].
  - cbn [snd]. apply String.eqb_neq in Hne. now rewrite Hne.
  - destruct (JsMap.delete m k) as [found rest]. cbn [snd JsMap.get] in *.
    now rewrite IH.
Qed.

Lemma JsMap_keys_delete m k x :
  In x (List.map fst (snd (JsMap.delete m k))) -> In x (List.map fst m).
Proof.
  induction m as [|[k0 v0] m IH]; cbn [JsMap.delete]; [now intros H|].
  destruct (String.eqb k0 k); cbn [snd List.map fst].
  - intros H. now right.
  - destruct (JsMap.delete m k) as [found rest]. cbn [snd List.map fst] in *.
    intros [->|H]; [now left | right; now apply IH].
Qed.

Lemma JsMap_wf_delete m k : JsMap.wf m -> JsMap.wf (snd (JsMap.delete m k)).
Proof.
  unfold JsMap.wf.
  induction m as [|[k0 v0] m IH]; cbn [JsMap.delete]; [now intros H|].
  cbn [List.map fst]. intros [Hnotin Hrest]%NoDup_cons.
  destruct (String.eqb k0 k); cbn [snd]; [assumption|].
  pose proof (JsMap_keys_delete m k k0) as Hsub.
  specialize (IH Hrest).
  destruct (JsMap.delete m k) as [found rest]. cbn [snd List.map fst] in *.
  apply NoDup_cons. split; [|assumption].
  intros Hin%list_elem_of_In. apply Hnotin, list_elem_of_In, Hsub, Hin.
Qed.

Lemma JsMap_get_delete_eq m k :
  JsMap.wf m -> JsMap.get (snd (JsMap.delete m k)) k = None.
Proof.
  unfold JsMap.wf.
  induction m as [|[k0 v0] m IH]; cbn [JsMap.delete]; [reflexivity|].
  cbn [List.map fst]. intros [Hnotin Hrest]%NoDup_cons.
  destruct (String.eqb_spec k0 k) as [->|Hne]; cbn [snd].
  - destruct (JsMap.get m k) eqn:Hget; [|reflexivity].
    exfalso. apply Hnotin, list_elem_of_In. eapply JsMap_get_Some_In, Hget.
  - specialize (IH Hrest).
    destruct (JsMap.delete m k) as [found rest]. cbn [snd JsMap.get] in *.
    apply String.eqb_neq in Hne. now rewrite Hne.
Qed.

End JsMapFacts.

(** ** Lengths of the encodings *)

Lemma hex_encode_length (bs : list byte) :
  String.length (hex_encode bs) = 2 * length bs.
Proof.
  induction bs as [|b bs IH]; [reflexivity|].
  cbn [hex_encode length]. rewrite string_length_app, IH.
  unfold hex_of_byte. cbn [String.length]. lia.
Qed.

Lemma base64_encode_length_upto (n : nat) (bs : list byte) :
  length bs <= n ->
  String.length (base64_encode bs) = 4 * ((length bs + 2) / 3).
Proof.
  revert bs. induction n as [|n IH]; intros bs Hn.
  - destruct bs; [reflexivity | cbn [length] in Hn; lia].
  - destruct bs as [|a [|b [|c rest]]]; try reflexivity.
    cbn [base64_encode String.length length].
    rewrite IH by (cbn [length] in Hn; lia).
    replace (S (S (S (length rest))) + 2) with (length rest + 2 + 1 * 3) by lia.
    rewrite Nat.div_add by lia. lia.
Qed.

Lemma base64_encode_length (bs : list byte) :
  String.length (base64_encode bs) = 4 * ((length bs + 2) / 3).
Proof. now apply (base64_encode_length_upto (length bs)). Qed.

Lemma base64_encode_long (bs : list byte) :
  7 <= length bs -> 10 <= String.length (base64_encode bs).
Proof.
  intros H. rewrite base64_encode_length.
  assert (3 <= (length bs + 2) / 3); [|lia].
  apply Nat.div_le_lower_bound; lia.
Qed.

Lemma randomUUID_length (rng : Entropy) :
  String.length (fst (randomUUID rng)) = 36.
Proof.
  unfold randomUUID, randomBytes. cbn [fst]. unfold uuid_format.
  rewrite !string_length_app, !hex_encode_length.
  rewrite !length_take, !length_drop, !length_alter, length_map, length_seq.
  reflexivity.
Qed.

(** ** The store *)

Lemma JsMap_values_set_new {V : Type} (m : JsMap.t V) (k : string) (v : V) :
  JsMap.get m k = None ->
  JsMap.values (JsMap.set m k v) = (JsMap.values m ++ [v])%list.
Proof.
  unfold JsMap.values.
  induction m as [|[k' v'] m IH]; cbn [JsMap.set JsMap.get]; [reflexivity|].
  destruct (String.eqb k' k); [discriminate|].
  intros H. cbn [List.map snd app]. now rewrite IH.
Qed.

Lemma string_length_nonempty (s : string) : 0 < String.length s -> s <> "".
Proof. intros H ->. cbn in H. lia. Qed.

(** What [createGroup] does, with the id it settles on. *)
Lemma createGroup_eq (group : LSAGGroup.t) (st : MemStorage) (rng : Entropy) :
  exists gid rng',
    gid <> ""
    /\ createGroup group st rng
       = (LSAGGroup.mk (Some gid) (LSAGGroup.name group)
            (LSAGGroup.members group),
          {| groups :=
               JsMap.set (groups st) gid
                 (LSAGGroup.mk (Some gid) (LSAGGroup.name group)
                    (LSAGGroup.members group));
             signatures := signatures st |},
          rng')
    /\ (forall i, LSAGGroup.id group = Some i -> i <> "" ->
          gid = i /\ rng' = rng)
    /\ (not_ (LSAGGroup.id group) = true -> (gid, rng') = randomUUID rng).
Proof.
  unfold createGroup. destruct (not_ (LSAGGroup.id group)) eqn:Hid.
  - destruct (randomUUID rng) as [uuid rng'] eqn:Hu.
    exists uuid, rng'. split.
    + apply string_length_nonempty.
      pose proof (randomUUID_length rng) as Hlen. rewrite Hu in Hlen.
      cbn [fst] in Hlen. lia.
    + split; [reflexivity|]. split; [|reflexivity].
      intros i Hi Hne. rewrite Hi in Hid. cbn [not_] in Hid.
      apply String.eqb_eq in Hid. contradiction.
  - apply not_id_false in Hid as (gid & Hgid & Hne).
    exists gid, rng. rewrite Hgid. cbn [to_str].
    split; [assumption|]. split; [reflexivity|].
    split; [|discriminate]. now intros i [= <-] _.
Qed.

Lemma storage_inv_new : storage_inv MemStorage_new.
Proof.
  split; [apply NoDup_nil_2|]. split; [apply NoDup_nil_2|].
  split; intros k x H; discriminate H.
Qed.

Lemma storage_inv_set_group (st : MemStorage) (gid : string)
    (g : LSAGGroup.t) :
  storage_inv st -> LSAGGroup.id g = Some gid -> gid <> "" ->
  storage_inv {| groups := JsMap.set (groups st) gid g;
                 signatures := signatures st |}.
Proof.
  intros (Hwg & Hws & Hg & Hs) Hid Hne.
  split; [now apply JsMap_wf_set|]. split; [assumption|]. split; [|assumption].
  intros k g'. unfold getGroup. cbn [groups].
  destruct (string_dec gid k) as [<-|Hk].
  - rewrite JsMap_get_set_eq. now intros [= <-].
  - rewrite JsMap_get_set_ne by assumption. apply Hg.
Qed.

Lemma storage_inv_createGroup (group : LSAGGroup.t) (st : MemStorage)
    (rng : Entropy) :
  storage_inv st -> storage_inv (createGroup group st rng).1.2.
Proof.
  intros Hinv.
  destruct (createGroup_eq group st rng) as (gid & rng' & Hne & -> & _).
  cbn [fst snd]. now apply storage_inv_set_group.
Qed.

Lemma storage_inv_updateGroup (group g : LSAGGroup.t) (st st' : MemStorage) :
  storage_inv st -> updateGroup group st = Ok (g, st') -> storage_inv st'.
Proof.
  intros Hinv. unfold updateGroup.
  destruct (not_ (LSAGGroup.id group)) eqn:Hid; [discriminate|].
  apply not_id_false in Hid as (gid & Hgid & Hne).
  rewrite Hgid. cbn [to_str]. intros [= <- <-].
  now apply storage_inv_set_group.
Qed.

Lemma storage_inv_deleteGroup (k : string) (st : MemStorage) :
  storage_inv st -> storage_inv (deleteGroup k st).2.
Proof.
  intros (Hwg & Hws & Hg & Hs). unfold deleteGroup.
  pose proof (JsMap_wf_delete (groups st) k Hwg) as Hwf'.
  pose proof (JsMap_get_delete_eq (groups st) k Hwg) as Hgone.
  pose proof (JsMap_get_delete_ne (groups st) k) as Hother.
  destruct (JsMap.delete (groups st) k) as [found rest].
  cbn [fst snd] in *.
  split; [assumption|]. split; [assumption|]. split; [|assumption].
  intros k' g. unfold getGroup. cbn [groups].
  destruct (string_dec k k') as [<-|Hk].
  - rewrite Hgone. discriminate.
  - rewrite Hother by assumption. apply Hg.
Qed.

Lemma storage_inv_createSignature (s : LSAGSignature) (st : MemStorage) :
  storage_inv st -> storage_inv (createSignature s st).2.
Proof.
  intros (Hwg & Hws & Hg & Hs). unfold createSignature. cbn [snd].
  split; [assumption|]. split; [now apply JsMap_wf_set|].
  split; [assumption|].
  intros k s'. unfold getSignature. cbn [signatures].
  destruct (string_dec (keyImage s) k) as [<-|Hk].
  - rewrite JsMap_get_set_eq. now intros [= <-].
  - rewrite JsMap_get_set_ne by assumption. apply Hs.
Qed.

(** X1. [createGroup] always files the group under a non-empty id and
    returns it with that id: the id given when it is a non-empty string
    (no randomness is drawn), a fresh 36-character UUID otherwise.  The
    group can be read back under the id, whatever was stored there before
    is replaced, and no other group and no signature is touched. *)
Theorem createGroup_files_under_nonempty_id
    (group : LSAGGroup.t) (st : MemStorage) (rng : Entropy) :
  exists gid,
    gid <> ""
    /\ (createGroup group st rng).1.1
       = LSAGGroup.mk (Some gid) (LSAGGroup.name group)
           (LSAGGroup.members group)
    /\ getGroup (createGroup group st rng).1.2 gid
       = Some (createGroup group st rng).1.1
    /\ (forall k, k <> gid ->
          getGroup (createGroup group st rng).1.2 k = getGroup st k)
    /\ signatures (createGroup group st rng).1.2 = signatures st
    /\ (forall i, LSAGGroup.id group = Some i -> i <> "" ->
          gid = i /\ (createGroup group st rng).2 = rng)
    /\ (LSAGGroup.id group = None \/ LSAGGroup.id group = Some "" ->
          String.length gid = 36).
Proof.
  destruct (createGroup_eq group st rng)
    as (gid & rng' & Hne & Heq & Hgiven & Hfresh).
  exists gid. rewrite Heq. cbn [fst snd]. unfold getGroup. cbn [groups].
  split; [assumption|]. split; [reflexivity|].
  split; [apply JsMap_get_set_eq|].
  split; [intros k Hk; now apply JsMap_get_set_ne|].
  split; [reflexivity|]. split; [assumption|].
  intros Hid.
  assert (Hnot : not_ (LSAGGroup.id group) = true)
    by (destruct Hid as [-> | ->]; reflexivity).
  specialize (Hfresh Hnot).
  pose proof (randomUUID_length rng) as Hlen.
  rewrite <- Hfresh in Hlen. exact Hlen.
Qed.

(** X2. The store keeps every group under its own non-empty id and every
    signature under its key image, with no key twice: this holds of the
    new store and is preserved by [createGroup], [updateGroup],
    [deleteGroup] and [createSignature]. *)
Theorem storage_invariant :
  storage_inv MemStorage_new
  /\ (forall st, storage_inv st ->
        (forall group rng, storage_inv (createGroup group st rng).1.2)
        /\ (forall group g st',
              updateGroup group st = Ok (g, st') -> storage_inv st')
        /\ (forall k, storage_inv (deleteGroup k st).2)
        /\ (forall s, storage_inv (createSignature s st).2)).
Proof.
  split; [exact storage_inv_new|]. intros st Hinv.
  split; [|split; [|split]].
  - intros group rng. now apply storage_inv_createGroup.
  - intros group g st'. now apply storage_inv_updateGroup.
  - intros k. now apply storage_inv_deleteGroup.
  - intros s. now apply storage_inv_createSignature.
Qed.

(** X3. [updateGroup] rejects a group whose id is absent or empty and
    otherwise files the group under its id without looking at what the
    store holds: other groups and all signatures stay as they are, and a
    group that was not stored before is added at the end of the listing
    (the method is an upsert). *)
Theorem updateGroup_upserts (group : LSAGGroup.t) (st : MemStorage) :
  (LSAGGroup.id group = None \/ LSAGGroup.id group = Some "" ->
     updateGroup group st
       = Throw (new_Error "Cannot update group without an ID"))
  /\ (forall gid, LSAGGroup.id group = Some gid -> gid <> "" ->
        exists st',
          updateGroup group st = Ok (group, st')
          /\ getGroup st' gid = Some group
          /\ (forall k, k <> gid -> getGroup st' k = getGroup st k)
          /\ signatures st' = signatures st
          /\ (getGroup st gid = None ->
                getAllGroups st' = (getAllGroups st ++ [group])%list)).
Proof.
  unfold updateGroup. split.
  - intros [-> | ->]; reflexivity.
  - intros gid Hgid Hne.
    assert (Hnot : not_ (LSAGGroup.id group) = false)
      by (apply not_id_false; eauto).
    rewrite Hnot, Hgid. cbn [to_str]. eexists. split; [reflexivity|].
    unfold getGroup, getAllGroups. cbn [groups signatures].
    split; [apply JsMap_get_set_eq|].
    split; [intros k Hk; now apply JsMap_get_set_ne|].
    split; [reflexivity|]. apply JsMap_values_set_new.
Qed.

(** X4. On a store without duplicate keys, [deleteGroup] answers [true]
    exactly when the group was stored; afterwards the id is unknown, every
    other group is as before, and the signatures are untouched: those
    issued for the deleted group stay listed under its id. *)
Theorem deleteGroup_removes_only_the_group (k : string) (st : MemStorage) :
  JsMap.wf (groups st) ->
  ((deleteGroup k st).1 = true <-> exists g, getGroup st k = Some g)
  /\ getGroup (deleteGroup k st).2 k = None
  /\ (forall k', k <> k' ->
        getGroup (deleteGroup k st).2 k' = getGroup st k')
  /\ (forall gid,
        getSignaturesByGroup (deleteGroup k st).2 gid
          = getSignaturesByGroup st gid).
Proof.
  intros Hwf. unfold deleteGroup, getGroup, getSignaturesByGroup.
  pose proof (JsMap_delete_found (groups st) k) as Hfound.
  pose proof (JsMap_get_delete_eq (groups st) k Hwf) as Hgone.
  pose proof (JsMap_get_delete_ne (groups st) k) as Hother.
  destruct (JsMap.delete (groups st) k) as [found rest].
  cbn [fst snd groups signatures] in *.
  split; [exact Hfound|]. split; [exact Hgone|].
  split; [exact Hother | reflexivity].
Qed.

(** X5. Storing a signature files it under its key image, so two linked
    signatures share one slot: after storing both, the store is what
    storing the second alone gives, and the key image reads back the
    second. *)
Theorem linked_signatures_share_one_slot
    (s1 s2 : LSAGSignature) (st : MemStorage) :
  areLSAGSignaturesLinked s1 s2 = true ->
  (createSignature s2 (createSignature s1 st).2).2 = (createSignature s2 st).2
  /\ getSignature (createSignature s2 (createSignature s1 st).2).2
       (keyImage s1) = Some s2.
Proof.
  unfold areLSAGSignaturesLinked. intros Hlinked%String.eqb_eq.
  unfold createSignature, getSignature. cbn [fst snd groups signatures].
  rewrite Hlinked, JsMap_set_set. split; [reflexivity|].
  apply JsMap_get_set_eq.
Qed.

(** ** Generated signatures *)

Section Generated.

Variable sha256 : string -> list byte.
Variable sign_sha256 : string -> string -> Result (list byte).
Variables (m sk : string) (signerIndex : Z).

(** The chain in closed form: the final value replays the start over the
    entries, and each entry is the signature or the hash of the message
    with the chain value reached before its slot. *)
Lemma ring_chain_spec_closed_form (ps : list string) :
  forall (i : nat) (rs entries : list string) (c c' : string),
    ring_chain_spec sha256 sign_sha256 m sk signerIndex i ps rs c
      = Some (entries, c') ->
    c' = replay sha256 c (zip entries ps)
    /\ forall j e r,
         entries !! j = Some e -> rs !! j = Some r ->
         if Z.eqb (Z.of_nat (i + j)) signerIndex
         then Sign_base64 sign_sha256
                (m ++ replay sha256 c (take j (zip entries ps))) sk = Some e
         else e = Hash_base64 sha256
                    (m ++ r ++ replay sha256 c (take j (zip entries ps))).
Proof.
  induction ps as [|p ps IH]; intros i rs entries c c' H.
  - cbn [ring_chain_spec] in H. injection H as <- <-.
    split; [reflexivity | intros j e r [=]].
  - destruct rs as [|r0 rs]; cbn [ring_chain_spec] in H.
    { injection H as <- <-. split; [reflexivity | intros j e r [=]]. }
    destruct (if Z.eqb (Z.of_nat i) signerIndex then _ else _)
      as [e0|] eqn:He0; [|discriminate].
    destruct (ring_chain_spec _ _ _ _ _ _ _ _ _) as [[es c'']|] eqn:Hrec;
      [|discriminate].
    injection H as <- <-.
    destruct (IH _ _ _ _ _ Hrec) as [Hc Hentries].
    split; [exact Hc|].
    intros [|j] e r He Hr.
    + injection He as <-. injection Hr as <-.
      rewrite Nat.add_0_r. cbn [take firstn replay fold_left].
      destruct (Z.eqb (Z.of_nat i) signerIndex); [exact He0|].
      now injection He0 as <-.
    + cbn in He, Hr. specialize (Hentries j e r He Hr).
      replace (i + S j) with (S i + j) by lia. exact Hentries.
Qed.

Lemma replay_length (c : string) (steps : list (string * string)) :
  (forall x, length (sha256 x) = 32) ->
  String.length c = 64 -> String.length (replay sha256 c steps) = 64.
Proof.
  intros Hdigest. revert c.
  induction steps as [|[e p] steps IH]; intros c Hc; [exact Hc|].
  cbn [replay fold_left]. apply IH.
  unfold Hash. now rewrite hex_encode_length, Hdigest.
Qed.

(** Without a slot for the signer, the chain is made of hashes alone. *)
Lemma ring_chain_spec_no_signer
    (sign' : string -> string -> Result (list byte)) (sk' : string)
    (ps : list string) :
  forall (i : nat) (rs : list string) (c : string),
    (forall j, i <= j < i + length ps -> Z.of_nat j <> signerIndex) ->
    exists r,
      ring_chain_spec sha256 sign_sha256 m sk signerIndex i ps rs c = Some r
      /\ ring_chain_spec sha256 sign' m sk' signerIndex i ps rs c = Some r.
Proof.
  induction ps as [|p ps IH]; intros i rs c Hout;
    [cbn [ring_chain_spec]; eauto|].
  destruct rs as [|r0 rs]; cbn [ring_chain_spec]; [eauto|].
  assert (Hi : Z.eqb (Z.of_nat i) signerIndex = false).
  { apply Z.eqb_neq, Hout. cbn [length]. lia. }
  rewrite Hi.
  destruct (IH (S i) rs (Hash sha256 (c ++ Hash_base64 sha256 (m ++ r0 ++ c) ++ p)))
    as ([es c'] & -> & ->); [|eauto].
  intros j Hj. apply Hout. cbn [length]. lia.
Qed.

End Generated.

(** What a returned signature is made of. *)
Lemma generate_Ok_inv
    (sha256 : string -> list byte)
    (sign_sha256 : string -> string -> Result (list byte))
    (m sk pk : string) (G : LSAGGroup.t) (signerIndex : Z) (rng : Entropy)
    (sig : LSAGSignature) :
  fst (generateLSAGSignature sha256 sign_sha256 m sk pk G signerIndex rng)
    = Ok sig ->
  exists gid,
    LSAGGroup.id G = Some gid /\ gid <> ""
    /\ ring_chain_spec sha256 sign_sha256 m sk signerIndex 0 (member_keys G)
         (drawn_scalars rng (length (LSAGGroup.members G)))
         (seed_challenge sha256 m G rng)
       = Some (ringSignature sig, challenge sig)
    /\ keyImage sig = createKeyImage sha256 m sk pk
    /\ message sig = m
    /\ groupId sig = gid
    /\ length (ringSignature sig) = length (LSAGGroup.members G).
Proof.
  intros Hgen.
  destruct (generateLSAGSignature_run sha256 sign_sha256 m sk pk G
              signerIndex rng) as [_ Hrun].
  fold (drawn_scalars rng (length (LSAGGroup.members G))) in Hrun.
  fold (seed_challenge sha256 m G rng) in Hrun.
  destruct (ring_chain_spec _ _ _ _ _ _ _ _ _) as [[entries c]|].
  - destruct Hrun as [Hlen Hrun]. rewrite Hrun in Hgen.
    destruct (not_ (LSAGGroup.id G)) eqn:Hid; [discriminate|].
    apply not_id_false in Hid as (gid & Hgid & Hne).
    injection Hgen as <-. cbn [ringSignature challenge keyImage message groupId].
    exists gid. rewrite Hgid. repeat split; assumption.
  - destruct Hrun as [err Hrun]. congruence.
Qed.

(** When a run returns. *)
Lemma generate_Ok_intro
    (sha256 : string -> list byte)
    (sign_sha256 : string -> string -> Result (list byte))
    (m sk pk : string) (G : LSAGGroup.t) (signerIndex : Z) (rng : Entropy)
    (gid : string) (entries : list string) (c : string) :
  LSAGGroup.id G = Some gid -> gid <> "" ->
  ring_chain_spec sha256 sign_sha256 m sk signerIndex 0 (member_keys G)
    (drawn_scalars rng (length (LSAGGroup.members G)))
    (seed_challenge sha256 m G rng) = Some (entries, c) ->
  fst (generateLSAGSignature sha256 sign_sha256 m sk pk G signerIndex rng)
    = Ok {| ringSignature := entries;
            challenge := c;
            keyImage := createKeyImage sha256 m sk pk;
            message := m;
            groupId := gid |}.
Proof.
  intros Hgid Hne Hspec.
  destruct (generateLSAGSignature_run sha256 sign_sha256 m sk pk G
              signerIndex rng) as [_ Hrun].
  fold (drawn_scalars rng (length (LSAGGroup.members G))) in Hrun.
  fold (seed_challenge sha256 m G rng) in Hrun.
  rewrite Hspec in Hrun. destruct Hrun as [_ ->].
  assert (Hnot : not_ (LSAGGroup.id G) = false) by (apply not_id_false; eauto).
  now rewrite Hnot, Hgid.
Qed.

Lemma createKeyImage_collision
    (sha256 : string -> list byte) (m m' sk pk : string) :
  m' <> m ->
  createKeyImage sha256 m' sk pk = createKeyImage sha256 m sk pk ->
  exists x y, x <> y /\ sha256 x = sha256 y.
Proof.
  intros Hne Heq. unfold createKeyImage, createHash_digest in Heq.
  cbn [encode] in Heq. apply hex_encode_inj in Heq.
  destruct (string_dec (hex_encode (sha256 (m' ++ pk)))
                       (hex_encode (sha256 (m ++ pk)))) as [Hin|Hin].
  - apply hex_encode_inj in Hin. exists (m' ++ pk), (m ++ pk).
    split; [now apply string_app_inv_head_neq | assumption].
  - eexists _, _. split; [|exact Heq]. now apply string_app_inv_head_neq.
Qed.

(** With a 32-byte digest and signatures of at least seven bytes, every
    entry of a returned signature passes the length check. *)
Lemma generated_entries_ring_ok
    (sha256 : string -> list byte)
    (sign_sha256 : string -> string -> Result (list byte))
    (m sk pk : string) (G : LSAGGroup.t) (signerIndex : Z) (rng : Entropy)
    (sig : LSAGSignature) :
  (forall x, length (sha256 x) = 32) ->
  (forall data raw, sign_sha256 data sk = Ok raw -> 7 <= length raw) ->
  fst (generateLSAGSignature sha256 sign_sha256 m sk pk G signerIndex rng)
    = Ok sig ->
  ring_ok (length (LSAGGroup.members G)) (ringSignature sig) = true.
Proof.
  intros Hdigest Hsig Hgen.
  destruct (generate_Ok_inv _ _ _ _ _ _ _ _ _ Hgen)
    as (gid & _ & _ & Hspec & _ & _ & _ & Hlen).
  destruct (ring_chain_spec_closed_form _ _ _ _ _ _ _ _ _ _ _ Hspec)
    as [_ Hentries].
  apply ring_ok_spec.
  intros i Hi.
  destruct (lookup_lt_is_Some_2 (ringSignature sig) i) as [e He]; [lia|].
  destruct (lookup_lt_is_Some_2
              (drawn_scalars rng (length (LSAGGroup.members G))) i)
    as [r Hr]; [unfold drawn_scalars; rewrite length_map, length_seq; lia|].
  exists e. split; [assumption|].
  specialize (Hentries i e r He Hr). cbn [Nat.add] in Hentries.
  destruct (Z.eqb (Z.of_nat i) signerIndex).
  - unfold Sign_base64 in Hentries.
    destruct (sign_sha256 _ sk) as [raw|err] eqn:Hraw; [|discriminate].
    injection Hentries as <-. apply base64_encode_long. eapply Hsig, Hraw.
  - subst e. unfold Hash_base64. apply base64_encode_long.
    rewrite Hdigest. lia.
Qed.

(** X6. With a 32-byte digest and a signing primitive that returns at
    least seven bytes, every signature [generateLSAGSignature] returns is
    accepted by [verifyLSAGSignature] against the same group: the hashes
    encode to 44 characters and the signature to at least 12, so each
    entry passes the length check. *)
Theorem generated_signature_verifies
    (sha256 : string -> list byte)
    (sign_sha256 : string -> string -> Result (list byte))
    (m sk pk : string) (G : LSAGGroup.t) (signerIndex : Z) (rng : Entropy)
    (sig : LSAGSignature) :
  (forall x, length (sha256 x) = 32) ->
  (forall data raw, sign_sha256 data sk = Ok raw -> 7 <= length raw) ->
  fst (generateLSAGSignature sha256 sign_sha256 m sk pk G signerIndex rng)
    = Ok sig ->
  verifyLSAGSignature sha256 sig G = Ok true.
Proof.
  intros Hdigest Hsig Hgen. rewrite verifyLSAGSignature_ring_ok. f_equal.
  eapply generated_entries_ring_ok; eassumption.
Qed.

(** X7. With a 32-byte digest, a returned signature has a key image and a
    challenge of 64 characters and 44 characters in every slot other than
    the signer's. *)
Theorem generated_signature_shape
    (sha256 : string -> list byte)
    (sign_sha256 : string -> string -> Result (list byte))
    (m sk pk : string) (G : LSAGGroup.t) (signerIndex : Z) (rng : Entropy)
    (sig : LSAGSignature) :
  (forall x, length (sha256 x) = 32) ->
  fst (generateLSAGSignature sha256 sign_sha256 m sk pk G signerIndex rng)
    = Ok sig ->
  String.length (keyImage sig) = 64
  /\ String.length (challenge sig) = 64
  /\ (forall i e, ringSignature sig !! i = Some e ->
        Z.of_nat i <> signerIndex -> String.length e = 44).
Proof.
  intros Hdigest Hgen.
  destruct (generate_Ok_inv _ _ _ _ _ _ _ _ _ Hgen)
    as (gid & _ & _ & Hspec & Hki & _ & _ & Hlen).
  destruct (ring_chain_spec_closed_form _ _ _ _ _ _ _ _ _ _ _ Hspec)
    as [Hc Hentries].
  split; [|split].
  - rewrite Hki. unfold createKeyImage, createHash_digest. cbn [encode].
    now rewrite hex_encode_length, Hdigest.
  - rewrite Hc. apply replay_length; [assumption|].
    unfold seed_challenge, Hash. now rewrite hex_encode_length, Hdigest.
  - intros i e He Hi.
    destruct (lookup_lt_is_Some_2
                (drawn_scalars rng (length (LSAGGroup.members G))) i)
      as [r Hr].
    { unfold drawn_scalars. rewrite length_map, length_seq, <- Hlen.
      eapply lookup_lt_Some, He. }
    specialize (Hentries i e r He Hr). cbn [Nat.add] in Hentries.
    apply Z.eqb_neq in Hi. rewrite Hi in Hentries. subst e.
    unfold Hash_base64. now rewrite base64_encode_length, Hdigest.
Qed.


(** X9. [generateLSAGSignature] does not check [signerIndex]: when it is
    negative or at least the number of members, the signing primitive is
    never used.  For a group with a non-empty id the run returns a
    signature, the same one whatever the primitive does (even if it always
    throws), and every entry of it is a hash. *)
Theorem out_of_range_signer_never_signs
    (sha256 : string -> list byte)
    (sign_sha256 sign' : string -> string -> Result (list byte))
    (m sk pk : string) (G : LSAGGroup.t) (signerIndex : Z) (rng : Entropy)
    (gid : string) :
  (signerIndex < 0 \/ Z.of_nat (length (LSAGGroup.members G)) <= signerIndex)%Z ->
  LSAGGroup.id G = Some gid -> gid <> "" ->
  exists sig,
    fst (generateLSAGSignature sha256 sign_sha256 m sk pk G signerIndex rng)
      = Ok sig
    /\ fst (generateLSAGSignature sha256 sign' m sk pk G signerIndex rng)
       = Ok sig
    /\ Forall (fun e => exists data, e = Hash_base64 sha256 data)
         (ringSignature sig).
Proof.
  intros Hout Hgid Hne.
  destruct (ring_chain_spec_no_signer sha256 sign_sha256 m sk signerIndex
              sign' sk (member_keys G) 0
              (drawn_scalars rng (length (LSAGGroup.members G)))
              (seed_challenge sha256 m G rng))
    as ([entries c] & Hspec & Hspec').
  { intros j Hj. unfold member_keys in Hj. rewrite length_map in Hj. lia. }
  eexists. split; [eapply generate_Ok_intro; eassumption|].
  split; [eapply generate_Ok_intro; eassumption|].
  cbn [ringSignature].
  destruct (ring_chain_spec_closed_form _ _ _ _ _ _ _ _ _ _ _ Hspec)
    as [_ Hentries].
  pose proof (ring_chain_spec_length _ _ _ _ _ _ _ _ _ _ _ Hspec) as Hlen.
  apply Forall_lookup. intros i e He.
  pose proof (lookup_lt_Some _ _ _ He) as Hi.
  destruct (lookup_lt_is_Some_2
              (drawn_scalars rng (length (LSAGGroup.members G))) i)
    as [r Hr]; [lia|].
  specialize (Hentries i e r He Hr). cbn [Nat.add] in Hentries.
  assert (Hneq : Z.eqb (Z.of_nat i) signerIndex = false).
  { apply Z.eqb_neq. unfold member_keys in Hlen.
    rewrite length_map in Hlen. lia. }
  rewrite Hneq in Hentries. eauto.
Qed.

(** X10. Two signatures returned for the same message and the same key
    pair are linked, whatever the groups, signer indices and random draws
    of the two runs. *)
Theorem same_message_same_keys_linked
    (sha256 : string -> list byte)
    (sign_sha256 : string -> string -> Result (list byte))
    (m sk pk : string) (G1 G2 : LSAGGroup.t) (i1 i2 : Z)
    (rng1 rng2 : Entropy) (sig1 sig2 : LSAGSignature) :
  fst (generateLSAGSignature sha256 sign_sha256 m sk pk G1 i1 rng1) = Ok sig1 ->
  fst (generateLSAGSignature sha256 sign_sha256 m sk pk G2 i2 rng2) = Ok sig2 ->
  areLSAGSignaturesLinked sig1 sig2 = true.
Proof.
  intros H1 H2.
  destruct (generate_Ok_inv _ _ _ _ _ _ _ _ _ H1)
    as (_ & _ & _ & _ & Hk1 & _).
  destruct (generate_Ok_inv _ _ _ _ _ _ _ _ _ H2)
    as (_ & _ & _ & _ & Hk2 & _).
  unfold areLSAGSignaturesLinked. rewrite Hk1, Hk2. apply String.eqb_refl.
Qed.

(** X11. Two signatures returned for different messages under the same
    key pair are linked only if the hash function collides: the same
    signer over two messages is, short of a collision, reported as not
    linked. *)
Theorem different_messages_linked_only_by_collision
    (sha256 : string -> list byte)
    (sign_sha256 : string -> string -> Result (list byte))
    (m1 m2 sk pk : string) (G1 G2 : LSAGGroup.t) (i1 i2 : Z)
    (rng1 rng2 : Entropy) (sig1 sig2 : LSAGSignature) :
  m1 <> m2 ->
  fst (generateLSAGSignature sha256 sign_sha256 m1 sk pk G1 i1 rng1) = Ok sig1 ->
  fst (generateLSAGSignature sha256 sign_sha256 m2 sk pk G2 i2 rng2) = Ok sig2 ->
  areLSAGSignaturesLinked sig1 sig2 = true ->
  exists x y, x <> y /\ sha256 x = sha256 y.
Proof.
  intros Hne H1 H2 Hlinked.
  destruct (generate_Ok_inv _ _ _ _ _ _ _ _ _ H1)
    as (_ & _ & _ & _ & Hk1 & _).
  destruct (generate_Ok_inv _ _ _ _ _ _ _ _ _ H2)
    as (_ & _ & _ & _ & Hk2 & _).
  unfold areLSAGSignaturesLinked in Hlinked. apply String.eqb_eq in Hlinked.
  rewrite Hk1, Hk2 in Hlinked.
  eapply createKeyImage_collision; eassumption.
Qed.

(** X12. A group read from a store that keeps its invariant can always be
    signed against: when the signing primitive accepts the private key,
    [generateLSAGSignature] returns a signature whose [groupId] is the id
    the group was read under; the missing-id error cannot occur. *)
Theorem stored_group_is_signable
    (sha256 : string -> list byte)
    (sign_sha256 : string -> string -> Result (list byte))
    (st : MemStorage) (k : string) (G : LSAGGroup.t)
    (m sk pk : string) (signerIndex : Z) (rng : Entropy) :
  storage_inv st ->
  getGroup st k = Some G ->
  (forall data, exists raw, sign_sha256 data sk = Ok raw) ->
  exists sig,
    fst (generateLSAGSignature sha256 sign_sha256 m sk pk G signerIndex rng)
      = Ok sig
    /\ groupId sig = k.
Proof.
  intros (_ & _ & Hgroups & _) Hget Hsign.
  destruct (Hgroups k G Hget) as [Hid Hne].
  destruct (ring_chain_spec_defined sha256 sign_sha256 m sk signerIndex 0
              (member_keys G)
              (drawn_scalars rng (length (LSAGGroup.members G)))
              (seed_challenge sha256 m G rng) Hsign) as [[entries c] Hspec].
  eexists. split; [eapply generate_Ok_intro; eassumption | reflexivity].
Qed.

(** ** The routes *)

Lemma min_1_nil (value message : string) :
  min_1 value message = [] <-> value <> "".
Proof.
  unfold min_1. destruct value as [|c value]; cbn.
  - split; [discriminate | congruence].
  - split; [discriminate | reflexivity].
Qed.

Lemma min_1_cases (value message : string) :
  (value <> "" /\ min_1 value message = [])
  \/ (value = "" /\ min_1 value message = [message]).
Proof. destruct value; [right | left]; split; reflexivity || discriminate. Qed.

Lemma sign_parse_Parsed (body data : SignRequest.t) :
  generateLSAGSignatureSchema_parse body = Parsed data ->
  data = body /\ SignRequest.groupId body <> ""
  /\ (0 <= SignRequest.signerIndex body)%Z.
Proof.
  unfold generateLSAGSignatureSchema_parse, int_min_0.
  destruct (min_1_cases (SignRequest.message body) "Message is required")
    as [[_ ->]|[_ ->]]; [|discriminate].
  destruct (min_1_cases (SignRequest.privateKey body) "Private key is required")
    as [[_ ->]|[_ ->]]; [|discriminate].
  destruct (min_1_cases (SignRequest.publicKey body) "Public key is required")
    as [[_ ->]|[_ ->]]; [|discriminate].
  destruct (min_1_cases (SignRequest.groupId body) "Group ID is required")
    as [[Hgid ->]|[_ ->]]; [|discriminate].
  destruct (Z.ltb_spec (SignRequest.signerIndex body) 0); [discriminate|].
  cbn. intros [= <-]. auto.
Qed.

(** A chain that is not defined met a failure of the signing primitive. *)
Lemma ring_chain_spec_None
    (sha256 : string -> list byte)
    (sign_sha256 : string -> string -> Result (list byte))
    (m sk : string) (signerIndex : Z) (ps : list string) :
  forall (i : nat) (rs : list string) (c : string),
    ring_chain_spec sha256 sign_sha256 m sk signerIndex i ps rs c = None ->
    exists data e, sign_sha256 data sk = Throw e.
Proof.
  induction ps as [|p ps IH]; intros i rs c H;
    [cbn [ring_chain_spec] in H; discriminate|].
  destruct rs as [|r rs]; cbn [ring_chain_spec] in H; [discriminate|].
  destruct (Z.eqb (Z.of_nat i) signerIndex).
  - unfold Sign_base64 in H.
    destruct (sign_sha256 (m ++ c) sk) as [raw|e] eqn:Hraw; [|eauto].
    destruct (ring_chain_spec _ _ _ _ _ _ _ _ _) as [[es c']|] eqn:Hrec;
      [discriminate | eauto].
  - destruct (ring_chain_spec _ _ _ _ _ _ _ _ _) as [[es c']|] eqn:Hrec;
      [discriminate | eauto].
Qed.

Lemma generate_Throw_inv
    (sha256 : string -> list byte)
    (sign_sha256 : string -> string -> Result (list byte))
    (m sk pk : string) (G : LSAGGroup.t) (signerIndex : Z) (rng : Entropy)
    (gid e : string) :
  LSAGGroup.id G = Some gid -> gid <> "" ->
  fst (generateLSAGSignature sha256 sign_sha256 m sk pk G signerIndex rng)
    = Throw e ->
  exists data e', sign_sha256 data sk = Throw e'.
Proof.
  intros Hgid Hne Hthrow.
  destruct (ring_chain_spec sha256 sign_sha256 m sk signerIndex 0
              (member_keys G)
              (drawn_scalars rng (length (LSAGGroup.members G)))
              (seed_challenge sha256 m G rng)) as [[entries c]|] eqn:Hspec.
  - rewrite (generate_Ok_intro _ _ _ _ _ _ _ _ _ _ _ Hgid Hne Hspec) in Hthrow.
    discriminate.
  - eapply ring_chain_spec_None, Hspec.
Qed.

Section SignRoute.

Variable sha256 : string -> list byte.
Variable sign_sha256 : string -> string -> Result (list byte).
Variables (body : SignRequest.t) (st : MemStorage) (rng : Entropy).

Let run (G : LSAGGroup.t) :=
  generateLSAGSignature sha256 sign_sha256 (SignRequest.message body)
    (SignRequest.privateKey body) (SignRequest.publicKey body) G
    (SignRequest.signerIndex body) rng.

(** The ways the handler can answer. *)
Lemma post_lsag_sign_cases :
  (exists msg,
     post_lsag_sign sha256 sign_sha256 body st rng
       = (mkResponse 400 (JMessage msg), st, rng))
  \/ (getGroup st (SignRequest.groupId body) = None
      /\ post_lsag_sign sha256 sign_sha256 body st rng
         = (mkResponse 404 (JMessage "Group not found"), st, rng))
  \/ (exists G e,
        getGroup st (SignRequest.groupId body) = Some G
        /\ signer_slot_matches body G
        /\ fst (run G) = Throw e
        /\ post_lsag_sign sha256 sign_sha256 body st rng
           = (mkResponse 500
                (JMessage ("Error generating LSAG signature: " ++ e)),
              st, snd (run G)))
  \/ (exists G sig,
        getGroup st (SignRequest.groupId body) = Some G
        /\ signer_slot_matches body G
        /\ fst (run G) = Ok sig
        /\ post_lsag_sign sha256 sign_sha256 body st rng
           = (mkResponse 200 (JSignature sig), (createSignature sig st).2,
              snd (run G))).
Proof.
  unfold post_lsag_sign.
  destruct (generateLSAGSignatureSchema_parse body) as [data|errors] eqn:Hparse;
    [|left; eauto].
  apply sign_parse_Parsed in Hparse as (-> & Hgid & Hidx).
  destruct (getGroup st (SignRequest.groupId body)) as [G|];
    [|right; left; auto].
  destruct (Z.geb_spec (SignRequest.signerIndex body)
              (Z.of_nat (length (LSAGGroup.members G)))) as [Hge|Hlt];
    [left; eauto|].
  destruct (member_publicKey_lt G (Z.to_nat (SignRequest.signerIndex body)))
    as (key & Hkey & Hm); [lia|].
  rewrite Hm.
  destruct (String.eqb_spec key (SignRequest.publicKey body)) as [->|Hne];
    cbn [negb]; [|left; eauto].
  assert (Hslot : signer_slot_matches body G) by (split; [lia | assumption]).
  fold (run G). destruct (run G) as [[sig|e] rng'] eqn:Hrun; cbn [fst snd].
  - right; right; right. exists G, sig. rewrite Hrun.
    repeat split; try assumption; reflexivity.
  - right; right; left. exists G, e. rewrite Hrun.
    repeat split; try assumption; reflexivity.
Qed.

End SignRoute.

(** X13. On a store that keeps its invariant, the signing route answers
    200, 400, 404 or 500 and keeps the invariant.  Only a 200 changes the
    store: the body is then the signature [generateLSAGSignature] returned
    for the stored group, it is filed under its key image, its [groupId]
    is the request's, and the request's signer index names a slot of the
    group that holds the request's public key.  A 500 means the signing
    primitive rejected the private key: the missing-id error of
    [generateLSAGSignature] cannot be reached through the route. *)
Theorem post_lsag_sign_outcomes
    (sha256 : string -> list byte)
    (sign_sha256 : string -> string -> Result (list byte))
    (body : SignRequest.t) (st : MemStorage) (rng : Entropy) :
  storage_inv st ->
  let r := post_lsag_sign sha256 sign_sha256 body st rng in
  storage_inv r.1.2
  /\ In (status r.1.1) [200; 400; 404; 500]
  /\ (status r.1.1 <> 200 -> r.1.2 = st)
  /\ (status r.1.1 = 500 ->
        exists data e,
          sign_sha256 data (SignRequest.privateKey body) = Throw e)
  /\ (status r.1.1 = 200 ->
        exists G sig,
          getGroup st (SignRequest.groupId body) = Some G
          /\ signer_slot_matches body G
          /\ fst (generateLSAGSignature sha256 sign_sha256
                    (SignRequest.message body) (SignRequest.privateKey body)
                    (SignRequest.publicKey body) G
                    (SignRequest.signerIndex body) rng) = Ok sig
          /\ json r.1.1 = JSignature sig
          /\ r.1.2 = (createSignature sig st).2
          /\ getSignature r.1.2 (keyImage sig) = Some sig
          /\ groupId sig = SignRequest.groupId body).
Proof.
  intros Hinv r. subst r.
  destruct (post_lsag_sign_cases sha256 sign_sha256 body st rng)
    as [(msg & ->) | [(Hnone & ->) | [(G & e & HG & Hslot & Hrun & ->)
                                     | (G & sig & HG & Hslot & Hrun & ->)]]];
    cbn [fst snd status json].
  - split; [assumption|]. split; [cbn; auto 6|].
    split; [reflexivity|]. split; discriminate.
  - split; [assumption|]. split; [cbn; auto 6|].
    split; [reflexivity|]. split; discriminate.
  - pose proof Hinv as (Hwg & Hws & Hgroups & Hsigs).
    destruct (Hgroups _ _ HG) as [Hid Hne].
    split; [assumption|]. split; [cbn; auto 6|].
    split; [reflexivity|]. split; [|discriminate].
    intros _. eapply generate_Throw_inv; eassumption.
  - split; [now apply storage_inv_createSignature|]. split; [cbn; auto 6|].
    split; [congruence|]. split; [discriminate|]. intros _.
    exists G, sig. repeat split; try assumption; try apply Hslot.
    + unfold createSignature, getSignature. cbn [snd signatures].
      apply JsMap_get_set_eq.
    + destruct (generate_Ok_inv _ _ _ _ _ _ _ _ _ Hrun)
        as (gid & Hgid & _ & _ & _ & _ & Hsig & _).
      destruct Hinv as (_ & _ & Hgroups & _).
      destruct (Hgroups _ _ HG) as [Hid _]. congruence.
Qed.

(** X14. The verification route never answers 500 and never reads the
    signature's own [groupId], [challenge], [keyImage] or [message]: with
    an empty [groupId] in the request it answers 400, for an unknown group
    404, and otherwise 200 with [valid] saying whether each of the first
    [members.length] entries of the submitted signature is present with at
    least 10 characters, the members being those of the group the request
    names. *)
Theorem post_lsag_verify_answer
    (sha256 : string -> list byte) (body : VerifyRequest.t)
    (st : MemStorage) :
  post_lsag_verify sha256 body st
    = if String.eqb (VerifyRequest.groupId body) ""
      then mkResponse 400 (JMessage "Group ID is required")
      else match getGroup st (VerifyRequest.groupId body) with
           | None => mkResponse 404 (JMessage "Group not found")
           | Some G =>
               mkResponse 200
                 (JValid (ring_ok (length (LSAGGroup.members G))
                            (ringSignature (VerifyRequest.signature body))))
           end.
Proof.
  unfold post_lsag_verify, verifyLSAGSignatureSchema_parse.
  destruct (min_1_cases (VerifyRequest.groupId body) "Group ID is required")
    as [[Hne ->]|[-> ->]]; cbn [zod_result]; [|reflexivity].
  apply String.eqb_neq in Hne. rewrite Hne.
  destruct (getGroup st (VerifyRequest.groupId body)) as [G|]; [|reflexivity].
  now rewrite verifyLSAGSignature_ring_ok.
Qed.

(** X15. On a store that keeps its invariant, the linkability route
    reports two stored signatures as linked exactly when the two ids in
    the request are the same: signatures are filed under their key image,
    so two different stored signatures are never reported as linked. *)
Theorem post_lsag_check_linkability_same_id_only
    (body : LinkRequest.t) (st : MemStorage) (linked : bool) :
  storage_inv st ->
  post_lsag_check_linkability body st = mkResponse 200 (JLinked linked) ->
  linked = String.eqb (LinkRequest.signature1Id body)
             (LinkRequest.signature2Id body).
Proof.
  intros (_ & _ & _ & Hsigs). unfold post_lsag_check_linkability.
  destruct (checkLinkabilitySchema_parse body) as [data|errors] eqn:Hparse;
    [|discriminate].
  assert (data = body) as ->.
  { unfold checkLinkabilitySchema_parse in Hparse.
    destruct (min_1 _ _ ++ min_1 _ _)%list; [|discriminate].
    now injection Hparse. }
  destruct (getSignature st (LinkRequest.signature1Id body)) as [s1|] eqn:H1;
    [|discriminate].
  destruct (getSignature st (LinkRequest.signature2Id body)) as [s2|] eqn:H2;
    [|discriminate].
  intros [= <-]. unfold areLSAGSignaturesLinked.
  now rewrite (Hsigs _ _ H1), (Hsigs _ _ H2).
Qed.

(** X16. With a 32-byte digest and signatures of at least seven bytes, a
    signature the signing route answers with is accepted by the
    verification route for the same group id on the store the signing
    route leaves behind. *)
Theorem sign_route_then_verify_route
    (sha256 : string -> list byte)
    (sign_sha256 : string -> string -> Result (list byte))
    (body : SignRequest.t) (st st' : MemStorage) (rng rng' : Entropy)
    (sig : LSAGSignature) :
  (forall x, length (sha256 x) = 32) ->
  (forall data raw,
     sign_sha256 data (SignRequest.privateKey body) = Ok raw ->
     7 <= length raw) ->
  post_lsag_sign sha256 sign_sha256 body st rng
    = (mkResponse 200 (JSignature sig), st', rng') ->
  post_lsag_verify sha256
      (VerifyRequest.mk sig (SignRequest.groupId body)) st'
    = mkResponse 200 (JValid true).
Proof.
  intros Hdigest Hsig Hroute.
  assert (Hparse : exists data, generateLSAGSignatureSchema_parse body
                                = Parsed data).
  { unfold post_lsag_sign in Hroute.
    destruct (generateLSAGSignatureSchema_parse body); [eauto|discriminate]. }
  destruct Hparse as [data (_ & Hgid & _)%sign_parse_Parsed].
  destruct (post_lsag_sign_cases sha256 sign_sha256 body st rng)
    as [(msg & Heq) | [(Hnone & Heq) | [(G & e & HG & Hslot & Hrun & Heq)
                                       | (G & s & HG & Hslot & Hrun & Heq)]]];
    rewrite Heq in Hroute; try discriminate.
  injection Hroute as <- <- <-.
  unfold post_lsag_verify, verifyLSAGSignatureSchema_parse.
  cbn [VerifyRequest.groupId VerifyRequest.signature].
  rewrite (proj2 (min_1_nil _ _) Hgid). cbn [zod_result].
  unfold createSignature, getGroup.
  cbn [snd groups VerifyRequest.groupId VerifyRequest.signature].
  unfold getGroup in HG. rewrite HG, verifyLSAGSignature_ring_ok.
  do 2 f_equal. eapply generated_entries_ring_ok; eassumption.
Qed.

(** ** The tampering tutorial *)

Lemma substring_all (s : string) : String.substring 0 (String.length s) s = s.
Proof. induction s as [|c s IH]; cbn; [reflexivity | now rewrite IH]. Qed.

(** A string splits around any of its positions. *)
Lemma substring_split (s : string) :
  forall p, p < String.length s ->
    exists c,
      s = String.substring 0 p s
            ++ String c (String.substring (S p) (String.length s - S p) s)
      /\ String.length (String.substring 0 p s) = p.
Proof.
  induction s as [|a s IH]; intros p Hp; [cbn in Hp; lia|].
  destruct p as [|p].
  - exists a. cbn. rewrite Nat.sub_0_r, substring_all. split; reflexivity.
  - destruct (IH p) as (c & Hs & Hlen); [cbn in Hp; lia|].
    exists c. cbn [String.substring String.length Nat.sub append].
    split; [now rewrite <- Hs | now rewrite Hlen].
Qed.

Lemma string_app_inv_head (a x y : string) : a ++ x = a ++ y -> x = y.
Proof.
  induction a as [|c a IH]; cbn; [trivial|]. intros [= H]. now apply IH.
Qed.

(** X17. The tutorial's [tamperSignature] does nothing for an empty
    signature; otherwise it replaces the character in the middle (index
    [floor(length / 2)]) by [X] and leaves every other character and the
    length as they are.  The tampered signature is therefore the original
    one exactly when the middle character already is [X]. *)
Theorem tamperSignature_replaces_middle (s : string) :
  (s = "" -> tamperSignature s = None)
  /\ (s <> "" ->
        exists pre c post,
          s = pre ++ String c post
          /\ String.length pre = String.length s / 2
          /\ tamperSignature s = Some (pre ++ String "X"%char post)
          /\ (tamperSignature s = Some s <-> c = "X"%char)).
Proof.
  split; [now intros ->|]. intros Hne.
  assert (Hlen : 0 < String.length s) by (destruct s; [congruence | cbn; lia]).
  assert (Hp : String.length s / 2 < String.length s)
    by (apply Nat.div_lt; lia).
  destruct (substring_split s _ Hp) as (c & Hs & Hpre).
  set (p := String.length s / 2) in *.
  set (pre := String.substring 0 p s) in *.
  set (post := String.substring (S p) (String.length s - S p) s) in *.
  assert (Ht : tamperSignature s = Some (pre ++ String "X"%char post)).
  { unfold tamperSignature. cbn [not_].
    apply String.eqb_neq in Hne. rewrite Hne. fold p.
    unfold tamperChar, js_substring.
    replace (Nat.min 0 (String.length s)) with 0 by lia.
    replace (Nat.min p (String.length s)) with p by lia.
    replace (Nat.min (p + 1) (String.length s)) with (S p) by lia.
    replace (Nat.min (String.length s) (String.length s))
      with (String.length s) by lia.
    replace (Nat.min 0 p) with 0 by lia.
    replace (Nat.max 0 p - 0) with p by lia.
    replace (Nat.min (S p) (String.length s)) with (S p) by lia.
    replace (Nat.max (S p) (String.length s) - S p)
      with (String.length s - S p) by lia.
    reflexivity. }
  exists pre, c, post. split; [exact Hs|]. split; [exact Hpre|].
  split; [exact Ht|]. rewrite Ht. split.
  - intros [= H].
    assert (H' : pre ++ String "X"%char post = pre ++ String c post)
      by (rewrite <- Hs; exact H).
    apply string_app_inv_head in H'. now injection H'.
  - intros ->. now rewrite <- Hs.
Qed.

(** ** Further statements at concrete inputs *)

Lemma Demo_sha256_length (x : string) : length (Demo.sha256 x) = 32.
Proof.
  unfold Demo.sha256. rewrite length_take, length_app, repeat_length. lia.
Qed.

Lemma Demo_sign_length (data sk : string) (raw : list byte) :
  Demo.sign data sk = Ok raw -> 7 <= length raw.
Proof.
  unfold Demo.sign. destruct (String.eqb sk ""); [discriminate|].
  intros [= <-]. rewrite Demo_sha256_length. lia.
Qed.

Lemma Fixture_store1_inv : storage_inv Fixture.store1.
Proof. apply storage_inv_createGroup, storage_inv_new. Qed.

Lemma Fixture_store2_inv : storage_inv Fixture.store2.
Proof.
  change Fixture.store2 with (createSignature Demo.signature Fixture.store1).2.
  apply storage_inv_createSignature, Fixture_store1_inv.
Qed.

Lemma deleteGroup_removes_only_the_group_witness :
  (deleteGroup "g1" Fixture.store2).1 = true
  /\ getGroup (deleteGroup "g1" Fixture.store2).2 "g1" = None
  /\ getSignaturesByGroup (deleteGroup "g1" Fixture.store2).2 "g1"
     = [Demo.signature].
Proof.
  assert (Hwf : JsMap.wf (groups Fixture.store2)) by apply NoDup_singleton.
  destruct (deleteGroup_removes_only_the_group "g1" Fixture.store2 Hwf)
    as (Hfound & Hgone & _ & Hsigs).
  split; [apply Hfound; eexists; reflexivity|]. split; [exact Hgone|].
  rewrite Hsigs. reflexivity.
Defined.

Lemma linked_signatures_share_one_slot_witness :
  getSignature
    (createSignature (Fixture.unwrap Fixture.second_run)
       (createSignature Demo.signature Fixture.store1).2).2
    (keyImage Demo.signature)
  = Some (Fixture.unwrap Fixture.second_run).
Proof.
  apply (linked_signatures_share_one_slot Demo.signature
           (Fixture.unwrap Fixture.second_run) Fixture.store1).
  reflexivity.
Defined.

Lemma generated_signature_verifies_witness :
  verifyLSAGSignature Demo.sha256 (Fixture.unwrap Fixture.second_run)
    (Demo.group (Some "g9")) = Ok true.
Proof.
  apply (generated_signature_verifies Demo.sha256 Demo.sign "hello" "skA"
           "pkA" (Demo.group (Some "g9")) 1
           {| tape := tape Demo.rng; pos := 7 |});
    [exact Demo_sha256_length
    | intros data raw; apply Demo_sign_length
    | reflexivity].
Defined.

Lemma generated_signature_shape_witness :
  String.length (keyImage Demo.signature) = 64
  /\ String.length (challenge Demo.signature) = 64
  /\ (forall i e, ringSignature Demo.signature !! i = Some e ->
        Z.of_nat i <> 0%Z -> String.length e = 44).
Proof.
  apply (generated_signature_shape Demo.sha256 Demo.sign "hello" "skA" "pkA"
           (Demo.group (Some "g1")) 0 Demo.rng);
    [exact Demo_sha256_length | reflexivity].
Defined.


Lemma out_of_range_signer_never_signs_witness :
  exists sig,
    fst (generateLSAGSignature Demo.sha256 Demo.sign "hello" "skA" "pkA"
           (Demo.group (Some "g1")) 2 Demo.rng) = Ok sig
    /\ fst (generateLSAGSignature Demo.sha256 Fixture.no_sign "hello" "skA"
              "pkA" (Demo.group (Some "g1")) 2 Demo.rng) = Ok sig
    /\ Forall (fun e => exists data, e = Hash_base64 Demo.sha256 data)
         (ringSignature sig).
Proof.
  apply (out_of_range_signer_never_signs Demo.sha256 Demo.sign
           Fixture.no_sign "hello" "skA" "pkA" (Demo.group (Some "g1")) 2
           Demo.rng "g1");
    [right; simpl; lia | reflexivity | discriminate].
Defined.

Lemma same_message_same_keys_linked_witness :
  areLSAGSignaturesLinked Demo.signature (Fixture.unwrap Fixture.second_run)
    = true.
Proof.
  apply (same_message_same_keys_linked Demo.sha256 Demo.sign "hello" "skA"
           "pkA" (Demo.group (Some "g1")) (Demo.group (Some "g9")) 0 1
           Demo.rng {| tape := tape Demo.rng; pos := 7 |});
    reflexivity.
Defined.

Lemma different_messages_linked_only_by_collision_witness :
  exists x y, x <> y /\ Demo.sha256' x = Demo.sha256' y.
Proof.
  apply (different_messages_linked_only_by_collision Demo.sha256' Demo.sign
           "m1" "m2" "skA" "pkA" (Demo.group (Some "g1"))
           (Demo.group (Some "g1")) 0 0 Demo.rng Demo.rng
           (Fixture.unwrap (Fixture.collided "m1"))
           (Fixture.unwrap (Fixture.collided "m2")));
    [discriminate | reflexivity | reflexivity | reflexivity].
Defined.

Lemma stored_group_is_signable_witness :
  exists sig,
    fst (generateLSAGSignature Demo.sha256 Demo.sign "hello" "skA" "pkA"
           (Demo.group (Some "g1")) 0 Demo.rng) = Ok sig
    /\ groupId sig = "g1".
Proof.
  apply (stored_group_is_signable Demo.sha256 Demo.sign Fixture.store1 "g1"
           (Demo.group (Some "g1")) "hello" "skA" "pkA" 0 Demo.rng);
    [exact Fixture_store1_inv
    | reflexivity
    | intros data; eexists; reflexivity].
Defined.

Lemma post_lsag_sign_outcomes_witness :
  storage_inv Fixture.store2
  /\ getSignature Fixture.store2 (keyImage Demo.signature)
     = Some Demo.signature.
Proof.
  destruct (post_lsag_sign_outcomes Demo.sha256 Demo.sign Fixture.sign_body
              Fixture.store1 Demo.rng Fixture_store1_inv)
    as (Hinv & _ & _ & _ & Hok).
  split; [exact Hinv|].
  destruct (Hok eq_refl) as (G & sig & _ & _ & _ & Hjson & _ & Hget & _).
  injection Hjson as <-. exact Hget.
Defined.

Lemma post_lsag_check_linkability_same_id_only_witness :
  true = String.eqb (keyImage Demo.signature) (keyImage Demo.signature).
Proof.
  apply (post_lsag_check_linkability_same_id_only
           (LinkRequest.mk (keyImage Demo.signature) (keyImage Demo.signature))
           Fixture.store2 true);
    [exact Fixture_store2_inv | reflexivity].
Defined.

Lemma sign_route_then_verify_route_witness :
  post_lsag_verify Demo.sha256 (VerifyRequest.mk Demo.signature "g1")
    Fixture.store2
  = mkResponse 200 (JValid true).
Proof.
  apply (sign_route_then_verify_route Demo.sha256 Demo.sign Fixture.sign_body
           Fixture.store1 Fixture.store2 Demo.rng
           {| tape := tape Demo.rng; pos := 64 |} Demo.signature);
    [exact Demo_sha256_length
    | intros data raw; apply Demo_sign_length
    | reflexivity].
Defined.

Example post_lsag_sign_rejections :
  (post_lsag_sign Demo.sha256 Demo.sign
     (SignRequest.mk "" "" "pkA" "g1" (-1)) Fixture.store1 Demo.rng).1.1
    = mkResponse 400 (JMessage "Message is required")
  /\ (post_lsag_sign Demo.sha256 Demo.sign
        (SignRequest.mk "hello" "skA" "pkA" "nope" 0) Fixture.store1
        Demo.rng).1.1
     = mkResponse 404 (JMessage "Group not found")
  /\ (post_lsag_sign Demo.sha256 Demo.sign
        (SignRequest.mk "hello" "skA" "pkA" "g1" 2) Fixture.store1
        Demo.rng).1.1
     = mkResponse 400 (JMessage "Invalid signer index")
  /\ (post_lsag_sign Demo.sha256 Demo.sign
        (SignRequest.mk "hello" "skA" "pkA" "g1" 1) Fixture.store1
        Demo.rng).1.1
     = mkResponse 400
         (JMessage "Public key doesn't match the key at signerIndex").
Proof. repeat split; reflexivity. Qed.

Example createGroup_fresh_id :
  LSAGGroup.id (createGroup (Demo.group None) MemStorage_new Demo.rng).1.1
    = Some "01234567-0123-4567-8123-456701234567"
  /\ (createGroup (Demo.group None) MemStorage_new Demo.rng).2
     = {| tape := tape Demo.rng; pos := 16 |}.
Proof. split; reflexivity. Qed.

Example tamperSignature_demo :
  tamperSignature "abcdefg" = Some "abcXefg"
  /\ tamperSignature "abcXefg" = Some "abcXefg"
  /\ tamperSignature "" = None.
Proof. repeat split; reflexivity. Qed.

(** ** More on the store *)

Lemma JsMap_values_In_get {V : Type} (m : JsMap.t V) (v : V) :
  JsMap.wf m -> In v (JsMap.values m) -> exists k, JsMap.get m k = Some v.
Proof.
  unfold JsMap.wf, JsMap.values.
  induction m as [|[k0 v0] m IH]; cbn [List.map fst snd]; [now intros _ []|].
  intros [Hnotin Hrest]%NoDup_cons [<-|Hin].
  - exists k0. cbn [JsMap.get]. now rewrite String.eqb_refl.
  - destruct (IH Hrest Hin) as [k Hk]. exists k. cbn [JsMap.get].
    destruct (String.eqb_spec k0 k) as [->|Hne]; [|exact Hk].
    exfalso. apply Hnotin, list_elem_of_In. eapply JsMap_get_Some_In, Hk.
Qed.

(** X18. A store that keeps its invariant never holds two different
    linked signatures: any two stored signatures with equal key images are
    one and the same. *)
Theorem store_never_holds_two_linked_signatures
    (st : MemStorage) (s s' : LSAGSignature) :
  storage_inv st ->
  In s (getAllSignatures st) -> In s' (getAllSignatures st) ->
  areLSAGSignaturesLinked s s' = true ->
  s = s'.
Proof.
  intros (_ & Hwf & _ & Hsigs) Hs Hs' Hlinked.
  unfold getAllSignatures in Hs, Hs'.
  destruct (JsMap_values_In_get _ _ Hwf Hs) as [k Hk].
  destruct (JsMap_values_In_get _ _ Hwf Hs') as [k' Hk'].
  unfold areLSAGSignaturesLinked in Hlinked. apply String.eqb_eq in Hlinked.
  pose proof (Hsigs _ _ Hk) as Hkey. pose proof (Hsigs _ _ Hk') as Hkey'.
  unfold getSignature in *. congruence.
Qed.

(** X19. Once a group is deleted, the verification route answers 404 for
    its id, also for signatures that were issued for it and are still
    listed. *)
Theorem deleted_group_cannot_be_verified_against
    (sha256 : string -> list byte) (st : MemStorage) (k : string)
    (sig : LSAGSignature) :
  JsMap.wf (groups st) -> k <> "" ->
  post_lsag_verify sha256 (VerifyRequest.mk sig k) (deleteGroup k st).2
    = mkResponse 404 (JMessage "Group not found")
  /\ getSignaturesByGroup (deleteGroup k st).2 k = getSignaturesByGroup st k.
Proof.
  intros Hwf Hne.
  unfold post_lsag_verify, verifyLSAGSignatureSchema_parse, deleteGroup,
    getGroup, getSignaturesByGroup.
  cbn [VerifyRequest.groupId VerifyRequest.signature].
  rewrite (proj2 (min_1_nil _ _) Hne). cbn [zod_result].
  pose proof (JsMap_get_delete_eq (groups st) k Hwf) as Hgone.
  destruct (JsMap.delete (groups st) k) as [found rest].
  cbn [fst snd groups signatures VerifyRequest.groupId] in *.
  now rewrite Hgone.
Qed.

Lemma store_never_holds_two_linked_signatures_witness :
  Demo.signature = Demo.signature.
Proof.
  apply (store_never_holds_two_linked_signatures Fixture.store2);
    [exact Fixture_store2_inv | now left | now left | reflexivity].
Defined.

Lemma deleted_group_cannot_be_verified_against_witness :
  post_lsag_verify Demo.sha256 (VerifyRequest.mk Demo.signature "g1")
      (deleteGroup "g1" Fixture.store2).2
    = mkResponse 404 (JMessage "Group not found")
  /\ getSignaturesByGroup (deleteGroup "g1" Fixture.store2).2 "g1"
     = getSignaturesByGroup Fixture.store2 "g1".
Proof.
  apply deleted_group_cannot_be_verified_against;
    [apply NoDup_singleton | discriminate].
Defined.
